(** * Scalar gradient descent (01-gradient_descent/GradientDescent.ipynb)

    A shallow embedding of the notebook's [gradient_descent] routine and the
    properties its specification states about it.

    The routine is duck-typed Python: it only needs subtraction,
    multiplication, [np.abs] and [<] on whatever numbers it is given.  The
    embedding keeps that shape: the loop is written once over a carrier with
    those four operations (class [Num]); every structural property is proved
    for an arbitrary carrier, so it also covers machine floats, and the
    properties that need the laws of arithmetic are proved on the exact
    rationals [Q]. *)

From Stdlib Require Import List ZArith QArith Qabs Qpower Lia Lqa Bool.
Import ListNotations.

#[local] Close Scope Q_scope.
#[local] Open Scope nat_scope.

(** ** The numbers the routine computes with *)

Class Num (num : Type) : Type := {
  sub : num -> num -> num;      (* h - x *)
  mul : num -> num -> num;      (* alpha * x *)
  abs : num -> num;             (* np.abs(x) *)
  ltb : num -> num -> bool      (* x < tol *)
}.

(** Strict order on [Q] as a boolean, by cross-multiplication as [Qlt]. *)
Definition Qlt_bool (x y : Q) : bool :=
  (Qnum x * QDen y <? Qnum y * QDen x)%Z.

#[export] Instance Q_Num : Num Q := {
  sub := Qminus;
  mul := Qmult;
  abs := Qabs;
  ltb := Qlt_bool
}.

(** ** What a run can be observed to do *)

Section GradientDescent.

Context {num : Type} `{Num num}.
(** [W]: whatever the caller's callback acts on (a plot, a list, ...). *)
Context {W : Type}.

Inductive event : Type :=
| Evaluated (h : num)                    (* derivative_of_f(h) was called *)
| PrintedIter (iteration : Z) (h_next : num)
                                         (* print(f'iter #{iteration}: h={h_next}') *)
| Called (h_next : num)                  (* callback(h_next) was called *)
| PrintedMax.                            (* print('Reached Max Iters') *)

(** [result = None]: the call to [derivative_of_f] raised and the
    exception left [gradient_descent]. *)
Record run : Type := {
  result : option num;
  world : W;
  trace : list event
}.

(** ** The routine *)

(** [derivative_of_f] is the caller's function; it may raise ([None]).
    [callback] is [None] or a function of the new position acting on the
    caller's world. *)
Variable derivative_of_f : num -> option num.
Variable alpha : num.
Variable tol : num.
Variable verbose : bool.
Variable callback : option (num -> W -> W).

(** The loop [for iteration in range(max_iter): ... else: ...], with [n]
    iterations left; the [O] case is the [else] clause, taken when the
    range is exhausted without [break]. *)
Fixpoint for_loop (n : nat) (iteration : Z) (h : num) (w : W)
         (t : list event) : run :=
  match n with
  | O =>
      {| result := Some h; world := w;
         trace := if verbose then t ++ [PrintedMax] else t |}
  | S n' =>
      match derivative_of_f h with
      | None => {| result := None; world := w; trace := t ++ [Evaluated h] |}
      | Some d =>
          let h_next := sub h (mul alpha d) in
          let t := t ++ [Evaluated h] in
          if ltb (abs (sub h_next h)) tol then
            {| result := Some h; world := w; trace := t |}
          else
            let t := if verbose then t ++ [PrintedIter iteration h_next]
                     else t in
            let t := match callback with
                     | Some _ => t ++ [Called h_next]
                     | None => t
                     end in
            let w := match callback with
                     | Some cb => cb h_next w
                     | None => w
                     end in
            for_loop n' (iteration + 1)%Z h_next w t
      end
  end.

(** [range(max_iter)] is empty for [max_iter <= 0]. *)
Definition gradient_descent (h_0 : num) (max_iter : Z) (w_0 : W) : run :=
  for_loop (Z.to_nat max_iter) 0%Z h_0 w_0 [].

End GradientDescent.

Arguments event num : clear implicits.
Arguments run num W : clear implicits.
Arguments Evaluated {num} h.
Arguments PrintedIter {num} iteration h_next.
Arguments Called {num} h_next.
Arguments PrintedMax {num}.

(** ** Reading a trace *)

Section Observations.

Context {num : Type}.

(** The points at which the derivative was evaluated, in order. *)
Fixpoint evaluated (t : list (event num)) : list num :=
  match t with
  | [] => []
  | Evaluated h :: t' => h :: evaluated t'
  | _ :: t' => evaluated t'
  end.

(** The arguments of the calls of the callback, in order. *)
Fixpoint called (t : list (event num)) : list num :=
  match t with
  | [] => []
  | Called x :: t' => x :: called t'
  | _ :: t' => called t'
  end.

Lemma evaluated_app (s t : list (event num)) :
  evaluated (s ++ t) = evaluated s ++ evaluated t.
Proof.
  induction s as [|e s IH]; simpl; [reflexivity|].
  destruct e; simpl; rewrite IH; reflexivity.
Qed.

Lemma called_app (s t : list (event num)) :
  called (s ++ t) = called s ++ called t.
Proof.
  induction s as [|e s IH]; simpl; [reflexivity|].
  destruct e; simpl; rewrite IH; reflexivity.
Qed.

End Observations.

(** ** The iteration the loop performs, as pure functions *)

Section Iteration.

Context {num : Type} `{Num num}.

(** A derivative that always returns. *)
Definition returning (d : num -> num) : num -> option num :=
  fun h => Some (d h).

Variable d : num -> num.
Variable alpha : num.
Variable tol : num.

(** [h_next = h - alpha * derivative_of_f(h)] *)
Definition update (h : num) : num := sub h (mul alpha (d h)).

(** [np.abs(h_next - h) < tol] *)
Definition converged (h : num) : bool :=
  ltb (abs (sub (update h) h)) tol.

(** The [k]-fold iterate of the update map. *)
Definition candidate (k : nat) (h_0 : num) : num :=
  Nat.iter k update h_0.

(** How many candidates a loop of [n] iterations adopts from [h]. *)
Fixpoint updates (n : nat) (h : num) : nat :=
  match n with
  | O => O
  | S n' => if converged h then O else S (updates n' (update h))
  end.

(** Whether a loop of [n] iterations from [h] leaves through [break]. *)
Fixpoint breaks (n : nat) (h : num) : bool :=
  match n with
  | O => false
  | S n' => if converged h then true else breaks n' (update h)
  end.

(** The candidates a loop of [n] iterations adopts from [h], in order. *)
Fixpoint adopted (n : nat) (h : num) : list num :=
  match n with
  | O => []
  | S n' => if converged h then []
            else update h :: adopted n' (update h)
  end.

(** The points a loop of [n] iterations evaluates the derivative at. *)
Fixpoint visited (n : nat) (h : num) : list num :=
  match n with
  | O => []
  | S n' => h :: (if converged h then [] else visited n' (update h))
  end.

Lemma candidate_S (k : nat) (h : num) :
  candidate (S k) h = candidate k (update h).
Proof. apply Nat.iter_succ_r. Qed.

Lemma updates_le (n : nat) : forall h, updates n h <= n.
Proof.
  induction n as [|n IH]; intro h; simpl; [lia|].
  destruct (converged h); [lia|]. specialize (IH (update h)). lia.
Qed.

Lemma updates_before (n : nat) :
  forall h j, j < updates n h -> converged (candidate j h) = false.
Proof.
  induction n as [|n IH]; intros h j Hj; simpl in Hj; [lia|].
  destruct (converged h) eqn:E; [lia|].
  destruct j as [|j]; [exact E|].
  rewrite candidate_S. apply IH. lia.
Qed.

Lemma breaks_iff_short (n : nat) :
  forall h, breaks n h = true <-> updates n h < n.
Proof.
  induction n as [|n IH]; intro h; simpl.
  - split; [discriminate | lia].
  - destruct (converged h).
    + split; [lia | reflexivity].
    + rewrite IH. lia.
Qed.

Lemma breaks_converged (n : nat) :
  forall h, breaks n h = true -> converged (candidate (updates n h) h) = true.
Proof.
  induction n as [|n IH]; intros h Hb; simpl in *; [discriminate|].
  destruct (converged h) eqn:E; [exact E|].
  rewrite candidate_S. apply IH, Hb.
Qed.

(** The first iterate at which the check passes is where the loop stops. *)
Lemma updates_first (n : nat) :
  forall h k, k < n ->
    (forall j, j < k -> converged (candidate j h) = false) ->
    converged (candidate k h) = true ->
    updates n h = k /\ breaks n h = true.
Proof.
  induction n as [|n IH]; intros h k Hk Hbefore Hat; [lia|]. simpl.
  destruct k as [|k].
  - simpl in Hat. rewrite Hat. split; reflexivity.
  - assert (E : converged h = false) by (apply (Hbefore 0); lia).
    rewrite E.
    destruct (IH (update h) k) as [Hu Hb].
    + lia.
    + intros j Hj. rewrite <- candidate_S. apply Hbefore. lia.
    + rewrite <- candidate_S. exact Hat.
    + rewrite Hu, Hb. split; reflexivity.
Qed.

(** With no check passing, every iteration adopts its candidate. *)
Lemma updates_full (n : nat) :
  forall h, (forall j, j < n -> converged (candidate j h) = false) ->
    updates n h = n /\ breaks n h = false.
Proof.
  induction n as [|n IH]; intros h Hnever; simpl; [split; reflexivity|].
  assert (E : converged h = false) by (apply (Hnever 0); lia).
  rewrite E.
  destruct (IH (update h)) as [Hu Hb].
  - intros j Hj. rewrite <- candidate_S. apply Hnever. lia.
  - rewrite Hu, Hb. split; reflexivity.
Qed.

Lemma adopted_candidates (n : nat) :
  forall h, adopted n h =
            map (fun j => candidate j h) (seq 1 (updates n h)).
Proof.
  induction n as [|n IH]; intro h; simpl; [reflexivity|].
  destruct (converged h); [reflexivity|].
  rewrite IH. cbn [seq map].
  rewrite <- (seq_shift _ 1), map_map. f_equal.
  apply map_ext. intro j. symmetry. apply candidate_S.
Qed.

Lemma visited_candidates (n : nat) :
  forall h, visited n h =
            map (fun j => candidate j h)
                (seq 0 (updates n h + if breaks n h then 1 else 0)).
Proof.
  induction n as [|n IH]; intro h; simpl; [reflexivity|].
  destruct (converged h); [reflexivity|].
  rewrite IH. cbn [Nat.add seq map].
  rewrite <- (seq_shift _ 0), map_map. f_equal.
  apply map_ext. intro j. symmetry. apply candidate_S.
Qed.

Lemma visited_length (n : nat) : forall h, length (visited n h) <= n.
Proof.
  induction n as [|n IH]; intro h; simpl; [lia|].
  destruct (converged h); simpl; [lia|]. specialize (IH (update h)). lia.
Qed.

End Iteration.

(** ** The loop against the pure iteration *)

Section LoopLaws.

Context {num : Type} `{Num num} {W : Type}.

(** The effect of one adopted candidate on the caller's world. *)
Definition notify (callback : option (num -> W -> W)) (w : W) (x : num) : W :=
  match callback with
  | Some cb => cb x w
  | None => w
  end.

Variable alpha : num.
Variable tol : num.

(** *** For any derivative, raising or not *)

Section AnyDerivative.

Variable derivative_of_f : num -> option num.

(** The returned value does not depend on [verbose], on [callback], on
    the world or on what has been traced so far. *)
Lemma for_loop_result_indep (n : nat) :
  forall verbose callback it h (w : W) t verbose' callback' it' (w' : W) t',
    result (for_loop derivative_of_f alpha tol verbose callback n it h w t) =
    result (for_loop derivative_of_f alpha tol verbose' callback' n it' h w' t').
Proof.
  induction n as [|n IH]; intros; simpl; [reflexivity|].
  destruct (derivative_of_f h) as [dv|]; [|reflexivity].
  destruct (ltb (abs (sub (sub h (mul alpha dv)) h)) tol); [reflexivity|].
  apply IH.
Qed.

(** An exception of the derivative leaves the routine. *)
Lemma for_loop_raises verbose callback (n : nat) it h (w : W) t :
  derivative_of_f h = None ->
  result (for_loop derivative_of_f alpha tol verbose callback (S n) it h w t)
  = None.
Proof. intro E. simpl. rewrite E. reflexivity. Qed.

End AnyDerivative.

(** *** For a derivative that returns *)

Variable d : num -> num.
Variable verbose : bool.
Variable callback : option (num -> W -> W).

Let loop := for_loop (returning d) alpha tol verbose callback.

Lemma for_loop_result (n : nat) :
  forall it h (w : W) t,
    result (loop n it h w t) =
    Some (candidate d alpha (updates d alpha tol n h) h).
Proof.
  induction n as [|n IH]; intros it h w t; [reflexivity|].
  cbn [updates]. unfold loop in *. cbn [for_loop returning].
  fold (update d alpha h). fold (converged d alpha tol h).
  destruct (converged d alpha tol h); [reflexivity|].
  rewrite IH, candidate_S. reflexivity.
Qed.

Lemma for_loop_world (n : nat) :
  forall it h (w : W) t,
    world (loop n it h w t) =
    fold_left (notify callback) (adopted d alpha tol n h) w.
Proof.
  induction n as [|n IH]; intros it h w t; [reflexivity|].
  unfold loop in *. cbn [for_loop returning adopted].
  fold (update d alpha h). fold (converged d alpha tol h).
  destruct (converged d alpha tol h); [reflexivity|].
  rewrite IH. reflexivity.
Qed.

Lemma for_loop_evaluated (n : nat) :
  forall it h (w : W) t,
    evaluated (trace (loop n it h w t)) =
    evaluated t ++ visited d alpha tol n h.
Proof.
  induction n as [|n IH]; intros it h w t.
  - unfold loop. cbn [for_loop trace visited].
    destruct verbose; rewrite ?evaluated_app, ?app_nil_r; reflexivity.
  - unfold loop in *. cbn [for_loop returning visited].
    fold (update d alpha h). fold (converged d alpha tol h).
    destruct (converged d alpha tol h).
    + cbn [trace]. rewrite evaluated_app. reflexivity.
    + rewrite IH.
      destruct verbose, callback;
        rewrite ?evaluated_app; cbn [evaluated];
        rewrite ?app_nil_r, <- ?app_assoc; reflexivity.
Qed.

Lemma for_loop_called (n : nat) :
  forall it h (w : W) t,
    called (trace (loop n it h w t)) =
    called t ++ match callback with
                | Some _ => adopted d alpha tol n h
                | None => []
                end.
Proof.
  induction n as [|n IH]; intros it h w t.
  - unfold loop. cbn [for_loop trace adopted].
    destruct verbose, callback;
      rewrite ?called_app, ?app_nil_r; reflexivity.
  - unfold loop in *. cbn [for_loop returning adopted].
    fold (update d alpha h). fold (converged d alpha tol h).
    destruct (converged d alpha tol h).
    + cbn [trace]. rewrite called_app. cbn [called].
      destruct callback; reflexivity.
    + rewrite IH.
      destruct verbose, callback;
        rewrite ?called_app; cbn [called];
        rewrite ?app_nil_r, <- ?app_assoc; reflexivity.
Qed.

End LoopLaws.

(** ** Properties of [gradient_descent] over any numbers *)

Section Contract.

Context {num : Type} `{Num num} {W : Type}.

(** Only the values the derivative returns matter. *)
Lemma for_loop_ext (f g : num -> option num) alpha tol verbose
      (callback : option (num -> W -> W)) :
  (forall h, f h = g h) ->
  forall n it h w t,
    for_loop f alpha tol verbose callback n it h w t =
    for_loop g alpha tol verbose callback n it h w t.
Proof.
  intros Hfg n. induction n as [|n IH]; intros it h w t; [reflexivity|].
  cbn [for_loop]. rewrite Hfg.
  destruct (g h) as [dv|]; [|reflexivity].
  destruct (ltb (abs (sub (sub h (mul alpha dv)) h)) tol); [reflexivity|].
  apply IH.
Qed.

(** The candidates the callback receives are the updates of the points the
    derivative was evaluated at. *)
Lemma adopted_updates (d : num -> num) alpha tol n h :
  adopted d alpha tol n h =
  map (fun j => update d alpha (candidate d alpha j h))
      (seq 0 (updates d alpha tol n h)).
Proof.
  rewrite adopted_candidates, <- seq_shift, map_map. reflexivity.
Qed.

(** C1. When the check [|next - current| < tol] passes for the first time on
    iteration [k] (counting from 0, and within the cap), the routine stops on
    that iteration, having evaluated the derivative at the iterates 0..k and
    nowhere else, and returns the iterate [k] it was standing on, not the
    candidate it had just computed.  With [k = 0] this is the initial guess. *)
Theorem gradient_descent_returns_pre_update
        (d : num -> num) alpha tol verbose (callback : option (num -> W -> W))
        h_0 max_iter w_0 (k : nat) :
  (Z.of_nat k < max_iter)%Z ->
  (forall j, j < k -> converged d alpha tol (candidate d alpha j h_0) = false) ->
  converged d alpha tol (candidate d alpha k h_0) = true ->
  let r := gradient_descent (returning d) alpha tol verbose callback
                            h_0 max_iter w_0 in
  result r = Some (candidate d alpha k h_0) /\
  evaluated (trace r) = map (fun j => candidate d alpha j h_0) (seq 0 (S k)).
Proof.
  intros Hk Hbefore Hat r. subst r. unfold gradient_descent.
  destruct (updates_first d alpha tol (Z.to_nat max_iter) h_0 k)
    as [Hu Hb]; [lia | assumption | assumption |].
  split.
  - rewrite for_loop_result, Hu. reflexivity.
  - rewrite for_loop_evaluated, visited_candidates, Hu, Hb.
    cbn [evaluated app]. f_equal. f_equal. lia.
Qed.

(** C2. Each new candidate is [current - alpha * derivative(current)], and
    when the check passes on none of the [max_iter] iterations the routine
    returns the [max_iter]-fold iterate of that map from [h_0], having
    evaluated the derivative once at each of the iterates before it and
    handed every candidate to the callback. *)
Theorem gradient_descent_iterates_update
        (d : num -> num) alpha tol verbose (callback : option (num -> W -> W))
        h_0 max_iter w_0 :
  (forall j, (Z.of_nat j < max_iter)%Z ->
             converged d alpha tol (candidate d alpha j h_0) = false) ->
  let r := gradient_descent (returning d) alpha tol verbose callback
                            h_0 max_iter w_0 in
  let n := Z.to_nat max_iter in
  result r = Some (Nat.iter n (fun h => sub h (mul alpha (d h))) h_0) /\
  evaluated (trace r) = map (fun j => candidate d alpha j h_0) (seq 0 n) /\
  world r =
    fold_left (notify callback)
      (map (fun j => sub (candidate d alpha j h_0)
                         (mul alpha (d (candidate d alpha j h_0))))
           (seq 0 n))
      w_0.
Proof.
  intros Hnever r n. subst r n. unfold gradient_descent.
  destruct (updates_full d alpha tol (Z.to_nat max_iter) h_0) as [Hu Hb].
  { intros j Hj. apply Hnever. lia. }
  repeat split.
  - rewrite for_loop_result, Hu. reflexivity.
  - rewrite for_loop_evaluated, visited_candidates, Hu, Hb.
    cbn [evaluated app]. f_equal. f_equal. lia.
  - rewrite for_loop_world, adopted_updates, Hu. reflexivity.
Qed.

(** C3. A derivative that returns on every input never makes the routine
    raise: whatever [h_0], [alpha], [max_iter] (zero and negative included)
    and [tol], the call returns a value, and that value is the last
    candidate the loop adopted.  The number [k] of adopted candidates is
    fixed by the run: the check passes at none of the iterates before the
    [k]-th, and either [k] is the cap or the check passes at the [k]-th
    iterate (first passage).  The derivative is evaluated once at each of
    the iterates up to there, at most [max_iter] times in all.  In
    particular, when the check never passes the routine runs to the cap and
    returns the [max_iter]-th iterate, whatever its magnitude. *)
Theorem gradient_descent_never_raises
        (derivative_of_f : num -> option num) (d : num -> num)
        alpha tol verbose (callback : option (num -> W -> W))
        h_0 max_iter w_0 :
  (forall h, derivative_of_f h = Some (d h)) ->
  let r := gradient_descent derivative_of_f alpha tol verbose callback
                            h_0 max_iter w_0 in
  let n := Z.to_nat max_iter in
  (exists k : nat,
     (Z.of_nat k <= Z.max 0 max_iter)%Z /\
     (forall j, j < k ->
                converged d alpha tol (candidate d alpha j h_0) = false) /\
     (k < n -> converged d alpha tol (candidate d alpha k h_0) = true) /\
     result r = Some (candidate d alpha k h_0) /\
     evaluated (trace r) =
       map (fun j => candidate d alpha j h_0)
           (seq 0 (if k <? n then S k else k)) /\
     (Z.of_nat (length (evaluated (trace r))) <= Z.max 0 max_iter)%Z) /\
  ((forall j, j < n ->
              converged d alpha tol (candidate d alpha j h_0) = false) ->
   result r = Some (candidate d alpha n h_0)).
Proof.
  intros Htotal r n. subst r n. unfold gradient_descent.
  rewrite (for_loop_ext derivative_of_f (returning d)) by exact Htotal.
  set (n := Z.to_nat max_iter).
  pose proof (updates_le d alpha tol n h_0) as Hle.
  pose proof (visited_length d alpha tol n h_0) as Hlen.
  pose proof (breaks_iff_short d alpha tol n h_0) as Hshort.
  split.
  - exists (updates d alpha tol n h_0).
    split; [lia|].
    split; [apply updates_before|].
    split; [intro Hlt; apply breaks_converged, Hshort, Hlt|].
    split; [apply for_loop_result|].
    split.
    + rewrite for_loop_evaluated, visited_candidates. cbn [evaluated app].
      destruct (breaks d alpha tol n h_0) eqn:Hb.
      * assert (Hlt : updates d alpha tol n h_0 < n)
          by (apply Hshort; reflexivity).
        apply Nat.ltb_lt in Hlt. rewrite Hlt. f_equal. f_equal. lia.
      * assert (Hge : ~ updates d alpha tol n h_0 < n).
        { intro Hlt. apply Hshort in Hlt. discriminate. }
        apply Nat.ltb_nlt in Hge. rewrite Hge. f_equal. f_equal. lia.
    + rewrite for_loop_evaluated. cbn [evaluated app]. lia.
  - intro Hnever.
    destruct (updates_full d alpha tol n h_0 Hnever) as [Hu _].
    rewrite for_loop_result, Hu. reflexivity.
Qed.

(** C4. The returned value is the same whatever [verbose] and [callback]
    are: any run returns what the run with [verbose=False] and
    [callback=None] returns (for any derivative, raising or not). *)
Theorem gradient_descent_result_independent
        (derivative_of_f : num -> option num) alpha tol verbose
        (callback : option (num -> W -> W)) h_0 max_iter w_0 :
  result (gradient_descent derivative_of_f alpha tol verbose callback
                           h_0 max_iter w_0) =
  result (gradient_descent derivative_of_f alpha tol false None
                           h_0 max_iter w_0).
Proof. unfold gradient_descent. apply for_loop_result_indep. Qed.

(** X5.  A run that left through [break] returned a point at which the check
    passes, so a second run from that point returns it again. *)
Lemma gradient_descent_fixed_after_break
      (d : num -> num) alpha tol verbose (callback : option (num -> W -> W))
      h_0 max_iter w_0 verbose' (callback' : option (num -> W -> W))
      max_iter' w_0' (r : num) :
  breaks d alpha tol (Z.to_nat max_iter) h_0 = true ->
  result (gradient_descent (returning d) alpha tol verbose callback
                           h_0 max_iter w_0) = Some r ->
  result (gradient_descent (returning d) alpha tol verbose' callback'
                           r max_iter' w_0') = Some r.
Proof.
  unfold gradient_descent. intros Hbreak Hfirst.
  rewrite for_loop_result in Hfirst. injection Hfirst as <-.
  apply breaks_converged in Hbreak.
  rewrite for_loop_result.
  destruct (Z.to_nat max_iter') as [|n']; [reflexivity|].
  cbn [updates]. rewrite Hbreak. reflexivity.
Qed.

End Contract.

(** ** The callback and the iteration cap *)

Section Hooks.

Context {num : Type} `{Num num} {W : Type}.

(** The property "the callback is called with the candidate of every
    iteration that computes one", on a trace: every point at which the
    derivative was evaluated has had its update handed to the callback. *)
Definition every_candidate_notified (d : num -> num) (alpha : num)
           (t : list (event num)) : Prop :=
  forall h, In h (evaluated t) -> In (update d alpha h) (called t).

(** C5, as the code has it.  A supplied callback is called once, in order,
    with the candidate [current - alpha * derivative(current)] of every
    iteration on which the check does not pass (the candidates the loop
    adopts, [k] of them); on the iteration on which the check passes the
    candidate is computed and the callback is not called. *)
Theorem callback_called_after_every_update
        (d : num -> num) alpha tol verbose (cb : num -> W -> W)
        h_0 max_iter w_0 :
  let r := gradient_descent (returning d) alpha tol verbose (Some cb)
                            h_0 max_iter w_0 in
  let n := Z.to_nat max_iter in
  exists k : nat,
    k <= n /\
    (forall j, j < k -> converged d alpha tol (candidate d alpha j h_0) = false) /\
    (k < n -> converged d alpha tol (candidate d alpha k h_0) = true) /\
    called (trace r) =
      map (fun j => update d alpha (candidate d alpha j h_0)) (seq 0 k) /\
    world r =
      fold_left (fun w x => cb x w)
        (map (fun j => update d alpha (candidate d alpha j h_0)) (seq 0 k))
        w_0 /\
    evaluated (trace r) =
      map (fun j => candidate d alpha j h_0)
          (seq 0 (if k <? n then S k else k)).
Proof.
  intros r n. subst r n. unfold gradient_descent.
  set (n := Z.to_nat max_iter).
  exists (updates d alpha tol n h_0).
  pose proof (updates_le d alpha tol n h_0) as Hle.
  pose proof (breaks_iff_short d alpha tol n h_0) as Hshort.
  split; [exact Hle|].
  split; [apply updates_before|].
  split; [intro Hlt; apply breaks_converged, Hshort, Hlt|].
  split; [rewrite for_loop_called, adopted_updates; reflexivity|].
  split; [rewrite for_loop_world, adopted_updates; reflexivity|].
  rewrite for_loop_evaluated, visited_candidates. cbn [evaluated app].
  destruct (breaks d alpha tol n h_0) eqn:Hb.
  - assert (Hlt : updates d alpha tol n h_0 < n) by (apply Hshort; reflexivity).
    apply Nat.ltb_lt in Hlt. rewrite Hlt. f_equal. f_equal. lia.
  - assert (Hge : ~ updates d alpha tol n h_0 < n).
    { intro Hlt. apply Hshort in Hlt. discriminate. }
    apply Nat.ltb_nlt in Hge. rewrite Hge. f_equal. f_equal. lia.
Qed.

(** C6. With [max_iter = 0] the routine returns [h_0] and never calls the
    derivative (so even a derivative that would raise is harmless); with
    [max_iter = 1] it evaluates the derivative once, at [h_0], and returns
    [h_0] when the check passes and the first candidate
    [h_0 - alpha * derivative(h_0)] otherwise. *)
Theorem gradient_descent_iteration_cap_boundary
        (derivative_of_f : num -> option num) (d : num -> num)
        alpha tol verbose (callback : option (num -> W -> W)) h_0 w_0 :
  let r0 := gradient_descent derivative_of_f alpha tol verbose callback
                             h_0 0%Z w_0 in
  let r1 := gradient_descent (returning d) alpha tol verbose callback
                             h_0 1%Z w_0 in
  (result r0 = Some h_0 /\ evaluated (trace r0) = [] /\ world r0 = w_0) /\
  (result r1 =
     Some (if ltb (abs (sub (sub h_0 (mul alpha (d h_0))) h_0)) tol
           then h_0 else sub h_0 (mul alpha (d h_0))) /\
   (result r1 = Some h_0 \/ result r1 = Some (sub h_0 (mul alpha (d h_0)))) /\
   evaluated (trace r1) = [h_0]).
Proof.
  intros r0 r1. subst r0 r1. unfold gradient_descent.
  change (Z.to_nat 0) with 0. change (Z.to_nat 1) with 1.
  cbn [for_loop returning]. split.
  - cbn [result world trace]. repeat split. destruct verbose; reflexivity.
  - destruct (ltb (abs (sub (sub h_0 (mul alpha (d h_0))) h_0)) tol).
    + cbn [result trace]. repeat split. left; reflexivity.
    + cbn [result trace]. repeat split; [right; reflexivity|].
      destruct verbose, callback; reflexivity.
Qed.

(** C9, as the code has it.  The routine tests the step it has computed,
    [|(r - alpha * derivative(r)) - r| < tol].  From a point [r] at which
    that test passes it returns [r] itself: the first iteration evaluates
    the derivative at [r], the check passes, and nothing is adopted or
    handed to the callback.  This holds for every [r], on any arithmetic,
    in particular for the value returned by a run that stopped through the
    check. *)
Theorem gradient_descent_terminal_idempotent
        (d : num -> num) (r alpha tol : num) verbose
        (callback : option (num -> W -> W)) (max_iter : Z) (w_0 : W) :
  ltb (abs (sub (sub r (mul alpha (d r))) r)) tol = true ->
  let run := gradient_descent (returning d) alpha tol verbose callback
                              r max_iter w_0 in
  result run = Some r /\
  world run = w_0 /\
  called (trace run) = [] /\
  ((1 <= max_iter)%Z -> trace run = [Evaluated r]).
Proof.
  intros Hmet run. subst run. unfold gradient_descent.
  destruct (Z.to_nat max_iter) as [|n] eqn:En.
  - cbn [for_loop result world trace].
    repeat split; [destruct verbose; reflexivity | lia].
  - cbn [for_loop returning]. rewrite Hmet.
    cbn [result world trace app called]. repeat split.
Qed.

End Hooks.

(** ** Exact arithmetic: the routine on the rationals *)

Section Rationals.

Open Scope Q_scope.

Context {W : Type}.

Lemma Qlt_bool_iff (x y : Q) : Qlt_bool x y = true <-> x < y.
Proof. unfold Qlt_bool, Qlt. apply Z.ltb_lt. Qed.

Lemma Qlt_bool_false_iff (x y : Q) : Qlt_bool x y = false <-> y <= x.
Proof. unfold Qlt_bool, Qle. rewrite Z.ltb_ge. reflexivity. Qed.

(** The size of the step from [h] is [|alpha * derivative(h)|]. *)
Lemma step_size (d : Q -> Q) (alpha h : Q) :
  Qabs (update d alpha h - h) == Qabs (alpha * d h).
Proof.
  unfold update. cbn [sub mul Q_Num].
  rewrite <- (Qabs_opp (alpha * d h)). apply Qabs_wd. ring.
Qed.

Lemma converged_iff (d : Q -> Q) (alpha tol h : Q) :
  converged d alpha tol h = true <-> Qabs (alpha * d h) < tol.
Proof.
  unfold converged. cbn [sub abs ltb Q_Num].
  rewrite Qlt_bool_iff, step_size. reflexivity.
Qed.

Lemma not_converged_iff (d : Q -> Q) (alpha tol h : Q) :
  converged d alpha tol h = false <-> tol <= Qabs (alpha * d h).
Proof.
  unfold converged. cbn [sub abs ltb Q_Num].
  rewrite Qlt_bool_false_iff, step_size. reflexivity.
Qed.

(** In exact arithmetic the step from [r] has size [|alpha * derivative(r)|],
    so from a point at which [|alpha * derivative(r)| < tol] the routine
    returns [r] itself: the first iteration evaluates the derivative at [r],
    the check passes, and nothing is adopted or handed to the callback. *)
Lemma terminal_idempotent_exact
        (d : Q -> Q) (r alpha tol : Q) verbose
        (callback : option (Q -> W -> W)) (max_iter : Z) (w_0 : W) :
  Qabs (alpha * d r) < tol ->
  let run := gradient_descent (returning d) alpha tol verbose callback
                              r max_iter w_0 in
  result run = Some r /\
  world run = w_0 /\
  called (trace run) = [] /\
  ((1 <= max_iter)%Z -> trace run = [Evaluated r]).
Proof.
  intros Hmet run. subst run. unfold gradient_descent.
  apply converged_iff in Hmet.
  destruct (Z.to_nat max_iter) as [|n] eqn:En.
  - cbn [for_loop result world trace].
    repeat split; [destruct verbose; reflexivity | lia].
  - cbn [for_loop returning].
    fold (update d alpha r). fold (converged d alpha tol r). rewrite Hmet.
    cbn [result world trace app called]. repeat split.
Qed.

(** C10. The comparison is strict.  An iteration whose step
    [|next - current|] equals [tol] does not leave the loop: it prints (if
    verbose), calls the callback (if any), adopts [next] and goes on with
    the remaining iterations.  And with a tolerance of zero the check never
    passes: the routine runs all [max_iter] iterations and returns the last
    iterate. *)
Theorem convergence_check_is_strict
        (d : Q -> Q) (alpha tol : Q) (verbose : bool)
        (callback : option (Q -> W -> W)) :
  (forall (n : nat) (iteration : Z) (h : Q) (w : W) (t : list (event Q)),
      Qabs (update d alpha h - h) == tol ->
      let h_next := update d alpha h in
      let t1 := t ++ [Evaluated h] in
      let t2 := if verbose then t1 ++ [PrintedIter iteration h_next] else t1 in
      let t3 := match callback with
                | Some _ => t2 ++ [Called h_next]
                | None => t2
                end in
      for_loop (returning d) alpha tol verbose callback (S n) iteration h w t =
      for_loop (returning d) alpha tol verbose callback n (iteration + 1)%Z
               h_next (notify callback w h_next) t3) /\
  (tol == 0 ->
   forall (h_0 : Q) (max_iter : Z) (w_0 : W),
     let r := gradient_descent (returning d) alpha tol verbose callback
                               h_0 max_iter w_0 in
     let n := Z.to_nat max_iter in
     result r = Some (candidate d alpha n h_0) /\
     evaluated (trace r) = map (fun j => candidate d alpha j h_0) (seq 0 n)).
Proof.
  split.
  - intros n iteration h w t Hstep h_next t1 t2 t3.
    subst h_next t1 t2 t3. cbn [for_loop returning].
    fold (update d alpha h). fold (converged d alpha tol h).
    assert (E : converged d alpha tol h = false).
    { apply not_converged_iff. rewrite <- step_size, Hstep. apply Qle_refl. }
    rewrite E. destruct callback; reflexivity.
  - intros Hzero h_0 max_iter w_0 r n. subst r n. unfold gradient_descent.
    destruct (updates_full d alpha tol (Z.to_nat max_iter) h_0) as [Hu Hb].
    { intros j _. apply not_converged_iff. rewrite Hzero. apply Qabs_nonneg. }
    split.
    + rewrite for_loop_result, Hu. reflexivity.
    + rewrite for_loop_evaluated, visited_candidates, Hu, Hb.
      cbn [evaluated app]. f_equal. f_equal. lia.
Qed.

(** *** The quadratic bowl: [derivative(h) = 2 * (h - c)] *)

Definition quadratic_derivative (c : Q) : Q -> Q := fun h => 2 * (h - c).

(** The notebook's instance: the derivative of the mean squared error of
    the salaries, [2 * np.mean(h - SALARIES)], is the derivative of the bowl
    around their mean. *)
Definition mean (ys : list Q) : Q :=
  fold_right Qplus 0 ys / inject_Z (Z.of_nat (length ys)).

Definition derivative_of_mean_squared_error (SALARIES : list Q) (h : Q) : Q :=
  2 * mean (map (fun y => h - y) SALARIES).

Lemma sum_of_differences (ys : list Q) (h : Q) :
  fold_right Qplus 0 (map (fun y => h - y) ys) ==
  inject_Z (Z.of_nat (length ys)) * h - fold_right Qplus 0 ys.
Proof.
  induction ys as [|y ys IH].
  - cbn. ring.
  - cbn [map fold_right length]. rewrite IH, Nat2Z.inj_succ.
    unfold Z.succ. rewrite inject_Z_plus. change (inject_Z 1) with 1. ring.
Qed.

Lemma derivative_of_mean_squared_error_quadratic (SALARIES : list Q) (h : Q) :
  SALARIES <> [] ->
  derivative_of_mean_squared_error SALARIES h ==
  quadratic_derivative (mean SALARIES) h.
Proof.
  intro Hne. unfold derivative_of_mean_squared_error, quadratic_derivative, mean.
  rewrite sum_of_differences, length_map.
  assert (Hn : ~ inject_Z (Z.of_nat (length SALARIES)) == 0).
  { change 0 with (inject_Z 0). rewrite inject_Z_injective.
    destruct SALARIES; [contradiction | cbn [length]; lia]. }
  field. exact Hn.
Qed.

(** One update multiplies the distance to [c] by [1 - 2 * alpha]. *)
Lemma quadratic_update (c alpha h : Q) :
  update (quadratic_derivative c) alpha h - c == (1 - 2 * alpha) * (h - c).
Proof. unfold update, quadratic_derivative. cbn [sub mul Q_Num]. ring. Qed.

Lemma Qpower_of_nat_S (a : Q) (k : nat) :
  a ^ Z.of_nat (S k) == a * a ^ Z.of_nat k.
Proof.
  rewrite Nat2Z.inj_succ. unfold Z.succ.
  rewrite Qpower_plus' by lia. change (a ^ 1) with a. ring.
Qed.

Lemma quadratic_candidate (c alpha h : Q) (k : nat) :
  candidate (quadratic_derivative c) alpha k h - c ==
  (1 - 2 * alpha) ^ Z.of_nat k * (h - c).
Proof.
  induction k as [|k IH].
  - change (candidate (quadratic_derivative c) alpha 0 h) with h.
    change ((1 - 2 * alpha) ^ Z.of_nat 0) with 1. ring.
  - change (candidate (quadratic_derivative c) alpha (S k) h)
      with (update (quadratic_derivative c) alpha
                   (candidate (quadratic_derivative c) alpha k h)).
    rewrite quadratic_update, IH, Qpower_of_nat_S. ring.
Qed.

Lemma quadratic_contracts (c alpha h : Q) (k : nat) :
  0 < alpha -> alpha < 1 ->
  Qabs (candidate (quadratic_derivative c) alpha k h - c) <= Qabs (h - c).
Proof.
  intros Hpos Hlt. induction k as [|k IH].
  - apply Qle_refl.
  - change (candidate (quadratic_derivative c) alpha (S k) h)
      with (update (quadratic_derivative c) alpha
                   (candidate (quadratic_derivative c) alpha k h)).
    rewrite quadratic_update, Qabs_Qmult.
    set (x := Qabs (candidate (quadratic_derivative c) alpha k h - c)) in *.
    assert (Hx : 0 <= x) by apply Qabs_nonneg.
    assert (Ha : Qabs (1 - 2 * alpha) <= 1).
    { apply Qabs_Qle_condition. split; lra. }
    assert (Ha0 : 0 <= Qabs (1 - 2 * alpha)) by apply Qabs_nonneg.
    set (a := Qabs (1 - 2 * alpha)) in *.
    apply Qle_trans with x; [|exact IH]. nra.
Qed.

(** With a step size above 1 every update moves away from [c]. *)
Lemma quadratic_large_step_grows (c alpha h : Q) :
  1 < alpha -> ~ h == c ->
  Qabs (h - c) < Qabs (update (quadratic_derivative c) alpha h - c).
Proof.
  intros Hbig Hne.
  rewrite quadratic_update, Qabs_Qmult.
  assert (Ha : Qabs (1 - 2 * alpha) == 2 * alpha - 1).
  { rewrite Qabs_neg by lra. ring. }
  rewrite Ha.
  assert (Hx : 0 < Qabs (h - c)).
  { destruct (Qlt_le_dec 0 (Qabs (h - c))) as [Hl|Hl]; [exact Hl|].
    exfalso. apply Hne.
    pose proof (Qabs_nonneg (h - c)) as H0.
    assert (E : Qabs (h - c) <= 0) by exact Hl.
    apply Qabs_Qle_condition in E. lra. }
  set (x := Qabs (h - c)) in *. nra.
Qed.

(** In exact arithmetic, on the quadratic bowl with [0 < alpha < 1], the
    value returned is [c + (1 - 2 alpha)^k (h_0 - c)] for the number [k] of
    updates made, never farther from [c] than [h_0] was; and either the cap
    was reached ([k = max_iter]) or the check passed and the value is within
    [tol / (2 alpha)] of [c]. *)
Lemma quadratic_bowl_closed_form
        (c h_0 alpha tol : Q) verbose (callback : option (Q -> W -> W))
        (max_iter : Z) (w_0 : W) :
  0 < alpha -> alpha < 1 ->
  let run := gradient_descent (returning (quadratic_derivative c)) alpha tol
                              verbose callback h_0 max_iter w_0 in
  exists (k : nat) (r : Q),
    result run = Some r /\
    r - c == (1 - 2 * alpha) ^ Z.of_nat k * (h_0 - c) /\
    Qabs (r - c) <= Qabs (h_0 - c) /\
    (k <= Z.to_nat max_iter)%nat /\
    ((k < Z.to_nat max_iter)%nat -> Qabs (r - c) < tol / (2 * alpha)).
Proof.
  intros Hpos Hlt run. subst run. unfold gradient_descent.
  set (d := quadratic_derivative c). set (n := Z.to_nat max_iter).
  exists (updates d alpha tol n h_0), (candidate d alpha (updates d alpha tol n h_0) h_0).
  split; [apply for_loop_result|].
  split; [apply quadratic_candidate|].
  split; [apply quadratic_contracts; assumption|].
  split; [apply updates_le|].
  intro Hshort. apply breaks_iff_short in Hshort.
  apply breaks_converged, converged_iff in Hshort.
  set (r := candidate d alpha (updates d alpha tol n h_0) h_0) in *.
  unfold d, quadratic_derivative in Hshort.
  assert (E : Qabs (alpha * (2 * (r - c))) == Qabs (r - c) * (2 * alpha)).
  { rewrite Qmult_assoc, Qabs_Qmult, (Qabs_pos (alpha * 2)) by lra. ring. }
  rewrite E in Hshort.
  apply Qlt_shift_div_l; [lra | exact Hshort].
Qed.


End Rationals.

(** ** Runs on concrete inputs *)

Section Scenarios.

Open Scope Q_scope.

(** The defaults of the signature: [max_iter=10_000, tol=1e-12]. *)
Definition default_max_iter : Z := 10000%Z.
Definition default_tol : Q := 1 # 1000000000000.

(** A callback that records the positions it is given, as the notebook's
    plotting code does. *)
Definition append_position (x : Q) (w : list Q) : list Q := w ++ [x].

(** Each element smaller than the next. *)
Fixpoint strictly_increasing (l : list Q) : Prop :=
  match l with
  | x :: (y :: _) as l' => x < y /\ strictly_increasing l'
  | _ => True
  end.

(** The sizes [|next - current|] of the steps along a path. *)
Fixpoint step_sizes (l : list Q) : list Q :=
  match l with
  | x :: (y :: _) as l' => Qabs (y - x) :: step_sizes l'
  | _ => []
  end.

(** "The returned value approaches [c] as the tolerance shrinks toward
    zero": every distance [eps] is met for all small enough tolerances. *)
Definition approaches (c : Q) (returned : Q -> option Q) : Prop :=
  forall eps, 0 < eps ->
    exists tol_0, 0 < tol_0 /\
      forall tol, 0 < tol -> tol <= tol_0 ->
        exists r, returned tol = Some r /\ Qabs (r - c) < eps.

(** On the bowl around 0, a step size [alpha <= 1/2] moves the iterate
    from 1 by at most [2 * alpha] per update. *)
Lemma quadratic_slow_candidates (alpha : Q) (k : nat) :
  0 <= alpha -> alpha <= 1 # 2 ->
  1 - 2 * alpha * inject_Z (Z.of_nat k) <=
  candidate (quadratic_derivative 0) alpha k 1.
Proof.
  intros Hpos Hhalf. induction k as [|k IH].
  - change (candidate (quadratic_derivative 0) alpha 0 1) with 1.
    change (inject_Z (Z.of_nat 0)) with 0. lra.
  - change (candidate (quadratic_derivative 0) alpha (S k) 1)
      with (update (quadratic_derivative 0) alpha
                   (candidate (quadratic_derivative 0) alpha k 1)).
    pose proof (quadratic_update 0 alpha
                  (candidate (quadratic_derivative 0) alpha k 1)) as Hup.
    set (x := candidate (quadratic_derivative 0) alpha k 1) in *.
    set (x' := update (quadratic_derivative 0) alpha x) in *.
    rewrite Nat2Z.inj_succ. unfold Z.succ. rewrite inject_Z_plus.
    assert (Hk : 0 <= inject_Z (Z.of_nat k)).
    { change 0 with (inject_Z 0). rewrite <- Zle_Qle. lia. }
    set (K := inject_Z (Z.of_nat k)) in *.
    change (inject_Z 1) with 1.
    assert (Hx' : x' == (1 - 2 * alpha) * x) by lra.
    rewrite Hx'. nra.
Qed.

(** With a step size of at most 1/100000, 10000 iterations from 1 on the
    bowl around 0 return a value no smaller than 4/5, whatever the
    tolerance. *)
Lemma quadratic_small_step_stays_away (alpha tol : Q) :
  0 < alpha -> alpha <= 1 # 100000 ->
  exists r,
    result (gradient_descent (returning (quadratic_derivative 0)) alpha tol
                             false (@None (Q -> unit -> unit))
                             1 default_max_iter tt) = Some r /\
    4 # 5 <= r.
Proof.
  intros Hpos Hsmall. unfold gradient_descent. rewrite for_loop_result.
  set (k := updates (quadratic_derivative 0) alpha tol
                    (Z.to_nat default_max_iter) 1).
  assert (Hk : (k <= Z.to_nat default_max_iter)%nat) by apply updates_le.
  eexists. split; [reflexivity|].
  pose proof (quadratic_slow_candidates alpha k) as Hslow.
  assert (HK : inject_Z (Z.of_nat k) <= 10000).
  { change 10000 with (inject_Z 10000). rewrite <- Zle_Qle.
    unfold default_max_iter in Hk. lia. }
  assert (HK0 : 0 <= inject_Z (Z.of_nat k)).
  { change 0 with (inject_Z 0). rewrite <- Zle_Qle. lia. }
  set (K := inject_Z (Z.of_nat k)) in *.
  assert (H1 : 1 - 2 * alpha * K <=
               candidate (quadratic_derivative 0) alpha k 1)
    by (apply Hslow; lra).
  apply Qle_trans with (1 - 2 * alpha * K); [|exact H1]. nra.
Qed.


(** No smaller step size does better: below every threshold there is a
    step size for which the returned value stays at or above 4/5. *)
Lemma quadratic_bowl_no_small_enough_step :
  ~ exists alpha_0, 0 < alpha_0 /\
      forall alpha, 0 < alpha -> alpha < alpha_0 ->
        approaches 0
          (fun tol =>
             result (gradient_descent (returning (quadratic_derivative 0))
                                      alpha tol false
                                      (@None (Q -> unit -> unit))
                                      1 default_max_iter tt)).
Proof.
  intros [alpha_0 [Hpos Hall]].
  set (alpha := if Qlt_le_dec (1 # 100000) alpha_0
                then 1 # 100000 else alpha_0 / 2).
  assert (Ha : 0 < alpha /\ alpha < alpha_0 /\ alpha <= 1 # 100000).
  { unfold alpha. destruct (Qlt_le_dec (1 # 100000) alpha_0) as [Hl|Hl].
    - split; [reflexivity | split; [exact Hl | apply Qle_refl]].
    - assert (E : alpha_0 / 2 == alpha_0 * (1 # 2)) by field.
      rewrite E. split; [lra | split; lra]. }
  destruct Ha as [Ha0 [Ha1 Ha2]].
  specialize (Hall alpha Ha0 Ha1).
  destruct (Hall (4 # 5)) as [tol_0 [Htol Hnear]]; [reflexivity|].
  destruct (Hnear tol_0 Htol (Qle_refl tol_0)) as [r [Hr Hlt]].
  destruct (quadratic_small_step_stays_away alpha tol_0 Ha0 Ha2)
    as [r' [Hr' Hfar]].
  rewrite Hr' in Hr. injection Hr as ->.
  apply Qabs_Qlt_condition in Hlt. lra.
Qed.

(** C8. The notebook's large-step run: [derivative(h) = 2 * (h - 100000)],
    [h_0 = 60000], [alpha = 1.1], six iterations, default tolerance.  The
    check passes on no iteration; the candidates are 148000, 42400, 169120,
    17056, 199532.8 and -19439.36, the last of which is returned; each is
    farther from the minimiser 100000 than the one before (40000, 48000,
    57600, ...: the distance grows by the factor 1.2), and each step is
    longer than the one before (88000, 105600, ...). *)
Theorem large_step_diverges :
  let d := quadratic_derivative 100000 in
  let r := gradient_descent (returning d) (11 # 10) default_tol false
                            (Some append_position) 60000 6 [] in
  breaks d (11 # 10) default_tol 6 60000 = false /\
  length (evaluated (trace r)) = 6%nat /\
  Forall2 Qeq (world r)
          [148000; 42400; 169120; 17056; 997664 # 5; -485984 # 25] /\
  (exists x, result r = Some x /\ x == -485984 # 25) /\
  strictly_increasing
    (map (fun h => Qabs (h - 100000)) (60000 :: world r)) /\
  strictly_increasing (step_sizes (60000 :: world r)).
Proof.
  cbv zeta. split; [vm_compute; reflexivity|].
  split; [vm_compute; reflexivity|].
  split; [vm_compute; repeat constructor|].
  split; [eexists; split; [vm_compute; reflexivity | reflexivity]|].
  split; vm_compute; repeat split.
Qed.

(** C5, as stated, fails.  On the bowl around 1 from 0 with
    [alpha = 1/4] and [tol = 1/5], the third iteration evaluates the
    derivative at 3/4 and computes the candidate 7/8; the step 1/8 is under
    the tolerance, the loop breaks, and 7/8 never reaches the callback. *)
Lemma callback_not_called_on_break :
  let d := quadratic_derivative 1 in
  let r := gradient_descent (returning d) (1 # 4) (1 # 5) false
                            (Some append_position) 0 10 [] in
  ~ every_candidate_notified d (1 # 4) (trace r).
Proof.
  cbv zeta. intro Hall.
  specialize (Hall (candidate (quadratic_derivative 1) (1 # 4) 2 0)).
  unfold gradient_descent in Hall.
  rewrite for_loop_evaluated, for_loop_called in Hall.
  change (Z.to_nat 10) with 10%nat in Hall.
  cbn in Hall.
  destruct Hall as [E|[E|[]]]; [right; right; left; reflexivity | |];
    discriminate E.
Qed.

(** *** The general properties at concrete inputs *)

(** The check passing on the very first iteration: from 2 on the bowl
    around 3 with [alpha = 1/10] the candidate is 2.2, the step 0.2 is under
    the tolerance 1, and the initial guess 2 is returned unchanged. *)
Example first_iteration_returns_initial_guess :
  let r := gradient_descent (returning (quadratic_derivative 3)) (1 # 10) 1
                            false (Some append_position) 2
                            default_max_iter [] in
  update (quadratic_derivative 3) (1 # 10) 2 == 22 # 10 /\
  result r = Some 2 /\ world r = [] /\ trace r = [Evaluated 2].
Proof. cbv zeta. split; [reflexivity|]. vm_compute. repeat split. Qed.

(** On the bowl around 1 from 0 with [alpha = 1/4] and [tol = 1/5] the
    check first passes on the third iteration, at the second iterate. *)
Lemma gradient_descent_returns_pre_update_witness :
  converged (quadratic_derivative 1) (1 # 4) (1 # 5)
            (candidate (quadratic_derivative 1) (1 # 4) 2 0) = true /\
  result (gradient_descent (returning (quadratic_derivative 1)) (1 # 4)
                           (1 # 5) false (Some append_position) 0
                           default_max_iter [])
  = Some (candidate (quadratic_derivative 1) (1 # 4) 2 0) /\
  evaluated (trace (gradient_descent (returning (quadratic_derivative 1))
                                     (1 # 4) (1 # 5) false
                                     (Some append_position) 0
                                     default_max_iter []))
  = map (fun j => candidate (quadratic_derivative 1) (1 # 4) j 0)
        (seq 0 3).
Proof.
  split; [reflexivity|].
  apply (gradient_descent_returns_pre_update
           (quadratic_derivative 1) (1 # 4) (1 # 5) false
           (Some append_position) 0 default_max_iter [] 2).
  - unfold default_max_iter. lia.
  - intros j Hj. destruct j as [|[|j]]; [reflexivity | reflexivity | lia].
  - reflexivity.
Defined.

(** The large-step run never passes the check in its six iterations. *)
Lemma gradient_descent_iterates_update_witness :
  let d := quadratic_derivative 100000 in
  let r := gradient_descent (returning d) (11 # 10) default_tol false
                            (Some append_position) 60000 6 [] in
  result r = Some (Nat.iter 6 (fun h => h - (11 # 10) * d h) 60000) /\
  evaluated (trace r) = map (fun j => candidate d (11 # 10) j 60000) (seq 0 6) /\
  world r =
    fold_left (notify (Some append_position))
      (map (fun j => candidate d (11 # 10) j 60000
                     - (11 # 10) * d (candidate d (11 # 10) j 60000))
           (seq 0 6))
      [].
Proof.
  cbv zeta.
  refine (gradient_descent_iterates_update
            (quadratic_derivative 100000) (11 # 10) default_tol false
            (Some append_position) 60000 6 [] _).
  intros j Hj.
  do 6 (destruct j as [|j]; [vm_compute; reflexivity|]). lia.
Defined.

(** A derivative that returns everywhere, on the bowl around 1 from 0 with
    [alpha = 1/4] and [tol = 1/5]. *)
Lemma gradient_descent_never_raises_witness :
  let d := quadratic_derivative 1 in
  let r := gradient_descent (returning d) (1 # 4) (1 # 5) true
                            (Some append_position) 0
                            default_max_iter [] in
  let n := Z.to_nat default_max_iter in
  (exists k : nat,
     (Z.of_nat k <= Z.max 0 default_max_iter)%Z /\
     (forall j, (j < k)%nat ->
                converged d (1 # 4) (1 # 5) (candidate d (1 # 4) j 0) = false) /\
     ((k < n)%nat ->
      converged d (1 # 4) (1 # 5) (candidate d (1 # 4) k 0) = true) /\
     result r = Some (candidate d (1 # 4) k 0) /\
     evaluated (trace r) =
       map (fun j => candidate d (1 # 4) j 0)
           (seq 0 (if (k <? n)%nat then S k else k)) /\
     (Z.of_nat (length (evaluated (trace r))) <= Z.max 0 default_max_iter)%Z) /\
  ((forall j, (j < n)%nat ->
              converged d (1 # 4) (1 # 5) (candidate d (1 # 4) j 0) = false) ->
   result r = Some (candidate d (1 # 4) n 0)).
Proof.
  cbv zeta.
  refine (gradient_descent_never_raises
            (returning (quadratic_derivative 1))
            (quadratic_derivative 1) (1 # 4) (1 # 5) true
            (Some append_position) 0 default_max_iter [] _).
  intro h. reflexivity.
Defined.


(** A point at which the computed step is under the tolerance: 2 on the
    bowl around 3, with [alpha = 1/10] and [tol = 1]. *)
Lemma gradient_descent_terminal_idempotent_witness :
  let r := gradient_descent (returning (quadratic_derivative 3)) (1 # 10) 1
                            false (Some append_position) 2
                            default_max_iter [] in
  Qlt_bool (Qabs ((2 - (1 # 10) * quadratic_derivative 3 2) - 2)) 1 = true /\
  result r = Some 2 /\
  world r = [] /\
  called (trace r) = [] /\
  ((1 <= default_max_iter)%Z -> trace r = [Evaluated 2]).
Proof.
  split; [reflexivity|].
  cbv zeta.
  refine (gradient_descent_terminal_idempotent
            (quadratic_derivative 3) 2 (1 # 10) 1 false
            (Some append_position) default_max_iter [] _).
  reflexivity.
Defined.

(** A step of exactly the tolerance (1/2, from 0 on the bowl around 1 with
    [alpha = 1/4]) is adopted; and a run with tolerance 0. *)
Lemma convergence_check_is_strict_witness :
  let d := quadratic_derivative 1 in
  (Qabs (update d (1 # 4) 0 - 0) == 1 # 2 /\
   for_loop (returning d) (1 # 4) (1 # 2) false (Some append_position)
            3 0 0 [] [] =
   for_loop (returning d) (1 # 4) (1 # 2) false (Some append_position)
            2 1 (update d (1 # 4) 0)
            [update d (1 # 4) 0]
            [Evaluated 0; Called (update d (1 # 4) 0)]) /\
  (result (gradient_descent (returning d) (1 # 4) 0 false
                            (Some append_position) 0 3 [])
   = Some (candidate d (1 # 4) 3 0) /\
   evaluated (trace (gradient_descent (returning d) (1 # 4) 0 false
                                      (Some append_position) 0 3 []))
   = map (fun j => candidate d (1 # 4) j 0) (seq 0 3)).
Proof.
  cbv zeta. split.
  - split; [reflexivity|].
    apply (proj1 (convergence_check_is_strict
                    (quadratic_derivative 1) (1 # 4) (1 # 2) false
                    (Some append_position))
                 2%nat 0%Z 0 [] []).
    reflexivity.
  - apply (proj2 (convergence_check_is_strict
                    (quadratic_derivative 1) (1 # 4) 0 false
                    (Some append_position))
                 (Qeq_refl 0) 0 3%Z []).
Defined.

End Scenarios.

(** * Further properties of the notebooks' code *)

(** ** What [verbose] prints, and what an exception leaves behind *)

Section VerboseAndExceptions.

Context {num : Type} `{Num num} {W : Type}.

(** What [verbose] printed, in order. *)
Fixpoint printed (t : list (event num)) : list (event num) :=
  match t with
  | [] => []
  | PrintedIter i x :: t' => PrintedIter i x :: printed t'
  | PrintedMax :: t' => PrintedMax :: printed t'
  | _ :: t' => printed t'
  end.

Lemma printed_app (s t : list (event num)) :
  printed (s ++ t) = printed s ++ printed t.
Proof.
  induction s as [|e s IH]; simpl; [reflexivity|].
  destruct e; simpl; rewrite IH; reflexivity.
Qed.

(** The lines a verbose loop of [n] iterations prints, starting at
    iteration number [it] from [h]. *)
Fixpoint lines (d : num -> num) (alpha tol : num) (n : nat) (it : Z)
         (h : num) : list (event num) :=
  match n with
  | O => [PrintedMax]
  | S n' =>
      if converged d alpha tol h then []
      else PrintedIter it (update d alpha h)
           :: lines d alpha tol n' (it + 1)%Z (update d alpha h)
  end.

Lemma for_loop_printed (d : num -> num) alpha tol verbose
      (callback : option (num -> W -> W)) (n : nat) :
  forall it h (w : W) t,
    printed (trace (for_loop (returning d) alpha tol verbose callback
                             n it h w t)) =
    printed t ++ if verbose then lines d alpha tol n it h else [].
Proof.
  induction n as [|n IH]; intros it h w t.
  - cbn [for_loop trace lines].
    destruct verbose; rewrite ?printed_app, ?app_nil_r; reflexivity.
  - cbn [for_loop returning lines].
    fold (update d alpha h). fold (converged d alpha tol h).
    destruct (converged d alpha tol h).
    + cbn [trace]. rewrite printed_app. cbn [printed].
      destruct verbose; reflexivity.
    + rewrite IH.
      destruct verbose, callback;
        rewrite ?printed_app; cbn [printed];
        rewrite ?app_nil_r, <- ?app_assoc; reflexivity.
Qed.

Lemma lines_candidates (d : num -> num) alpha tol (n : nat) :
  forall it h,
    lines d alpha tol n it h =
    map (fun j => PrintedIter (it + Z.of_nat j)%Z (candidate d alpha (S j) h))
        (seq 0 (updates d alpha tol n h))
    ++ if breaks d alpha tol n h then [] else [PrintedMax].
Proof.
  induction n as [|n IH]; intros it h; [reflexivity|].
  cbn [lines updates breaks].
  destruct (converged d alpha tol h); [reflexivity|].
  rewrite IH. cbn [seq map app]. f_equal.
  - f_equal. lia.
  - f_equal. rewrite <- (seq_shift _ 0), map_map. apply map_ext.
    intro j. rewrite <- (candidate_S d alpha (S j) h). f_equal. lia.
Qed.

(** X1.  A verbose run prints one line per adopted candidate, numbered from 0
    and showing that candidate, and then 'Reached Max Iters' exactly when
    it did not leave through [break]; a quiet run prints nothing. *)
Theorem verbose_prints_every_update
        (d : num -> num) alpha tol (callback : option (num -> W -> W))
        h_0 max_iter w_0 :
  let n := Z.to_nat max_iter in
  let k := updates d alpha tol n h_0 in
  printed (trace (gradient_descent (returning d) alpha tol true callback
                                   h_0 max_iter w_0)) =
    map (fun j => PrintedIter (Z.of_nat j) (candidate d alpha (S j) h_0))
        (seq 0 k)
    ++ (if breaks d alpha tol n h_0 then [] else [PrintedMax]) /\
  printed (trace (gradient_descent (returning d) alpha tol false callback
                                   h_0 max_iter w_0)) = [].
Proof.
  intros n k. subst n k. unfold gradient_descent.
  rewrite !for_loop_printed, lines_candidates. split; reflexivity.
Qed.

Lemma candidates_shift (d : num -> num) alpha h (a k : nat) :
  map (fun j => candidate d alpha j (update d alpha h)) (seq a k) =
  map (fun j => candidate d alpha j h) (seq (S a) k).
Proof.
  rewrite <- seq_shift, map_map. apply map_ext.
  intro j. symmetry. apply candidate_S.
Qed.

Lemma for_loop_derivative_raises
        (derivative_of_f : num -> option num) (d : num -> num)
        alpha tol verbose (callback : option (num -> W -> W)) (k : nat) :
  forall h_0 (n : nat) it (w_0 : W) t,
    k < n ->
    (forall j, j < k ->
       derivative_of_f (candidate d alpha j h_0)
       = Some (d (candidate d alpha j h_0))) ->
    (forall j, j < k -> converged d alpha tol (candidate d alpha j h_0) = false) ->
    derivative_of_f (candidate d alpha k h_0) = None ->
    let r := for_loop derivative_of_f alpha tol verbose callback
                      n it h_0 w_0 t in
    result r = None /\
    evaluated (trace r) =
      evaluated t ++ map (fun j => candidate d alpha j h_0) (seq 0 (S k)) /\
    world r =
      fold_left (notify callback)
                (map (fun j => candidate d alpha j h_0) (seq 1 k)) w_0.
Proof.
  induction k as [|k IH]; intros h_0 n it w_0 t Hk Hsome Hnot Hnone r;
    subst r; (destruct n as [|n]; [lia|]); cbn [for_loop].
  - change (candidate d alpha 0 h_0) with h_0 in Hnone. rewrite Hnone.
    cbn [result world trace]. rewrite evaluated_app. repeat split.
  - assert (E0 : derivative_of_f h_0 = Some (d h_0)) by (apply (Hsome 0); lia).
    assert (C0 : converged d alpha tol h_0 = false) by (apply (Hnot 0); lia).
    rewrite E0. fold (update d alpha h_0). fold (converged d alpha tol h_0).
    rewrite C0.
    match goal with
    | |- context [for_loop _ _ _ _ _ n ?it' ?h' ?w' ?t'] =>
        destruct (IH h' n it' w' t') as [Hr [He Hw]]
    end.
    + lia.
    + intros j Hj. rewrite <- candidate_S. apply Hsome. lia.
    + intros j Hj. rewrite <- candidate_S. apply Hnot. lia.
    + rewrite <- candidate_S. exact Hnone.
    + rewrite !candidates_shift in He, Hw.
      split; [exact Hr|]. split.
      * rewrite He. clear He Hw Hr IH.
        assert (Et : forall s : list (event num),
                   evaluated
                     (match callback with
                      | Some _ =>
                          (if verbose
                           then s ++ [PrintedIter it (update d alpha h_0)]
                           else s) ++ [Called (update d alpha h_0)]
                      | None =>
                          if verbose
                          then s ++ [PrintedIter it (update d alpha h_0)]
                          else s
                      end) = evaluated s).
        { intro s. destruct callback, verbose;
            rewrite ?evaluated_app; cbn [evaluated];
            rewrite ?app_nil_r; reflexivity. }
        rewrite Et, evaluated_app. cbn [evaluated]. rewrite <- app_assoc.
        reflexivity.
      * exact Hw.
Qed.

(** X2.  When the derivative raises at the iterate [k] (the first [k] iterates
    having been evaluated and adopted, within the cap), the exception leaves
    the routine: nothing is returned, the derivative has been called at the
    iterates 0..k, and the callback has already received the [k] candidates
    adopted before the failure. *)
Theorem derivative_exception_propagates
        (derivative_of_f : num -> option num) (d : num -> num)
        alpha tol verbose (callback : option (num -> W -> W))
        h_0 max_iter (w_0 : W) (k : nat) :
  (Z.of_nat k < max_iter)%Z ->
  (forall j, j < k ->
     derivative_of_f (candidate d alpha j h_0)
     = Some (d (candidate d alpha j h_0))) ->
  (forall j, j < k -> converged d alpha tol (candidate d alpha j h_0) = false) ->
  derivative_of_f (candidate d alpha k h_0) = None ->
  let r := gradient_descent derivative_of_f alpha tol verbose callback
                            h_0 max_iter w_0 in
  result r = None /\
  evaluated (trace r) = map (fun j => candidate d alpha j h_0) (seq 0 (S k)) /\
  world r =
    fold_left (notify callback)
              (map (fun j => candidate d alpha j h_0) (seq 1 k)) w_0.
Proof.
  intros Hk Hsome Hnot Hnone. unfold gradient_descent.
  apply (for_loop_derivative_raises derivative_of_f d alpha tol verbose
           callback k h_0 (Z.to_nat max_iter) 0%Z w_0 []);
    [lia | assumption | assumption | assumption].
Qed.

End VerboseAndExceptions.

(** ** The mean squared error and its derivative *)

Section MeanSquaredError.

Open Scope Q_scope.

Context {W : Type}.

(** [np.mean((SALARIES - h)**2)] *)
Definition mean_squared_error (SALARIES : list Q) (h : Q) : Q :=
  mean (map (fun y => (y - h) ^ 2) SALARIES).

Lemma square_nonneg (x : Q) : 0 <= x ^ 2.
Proof. change (x ^ 2) with (x * x). nra. Qed.

Lemma count_nonzero (ys : list Q) :
  ys <> [] -> ~ inject_Z (Z.of_nat (length ys)) == 0.
Proof.
  intro Hne. change 0 with (inject_Z 0). rewrite inject_Z_injective.
  destruct ys; [contradiction | cbn [length]; lia].
Qed.

Lemma total_of_squares (ys : list Q) (h : Q) :
  fold_right Qplus 0 (map (fun y => (y - h) ^ 2) ys) ==
  fold_right Qplus 0 (map (fun y => y ^ 2) ys)
  - 2 * h * fold_right Qplus 0 ys
  + inject_Z (Z.of_nat (length ys)) * h ^ 2.
Proof.
  induction ys as [|y ys IH].
  - cbn. ring.
  - cbn [map fold_right length]. rewrite IH, Nat2Z.inj_succ.
    unfold Z.succ. rewrite inject_Z_plus. change (inject_Z 1) with 1. ring.
Qed.

(** The mean squared error is a parabola in [h]. *)
Lemma mean_squared_error_parabola (SALARIES : list Q) (h : Q) :
  SALARIES <> [] ->
  mean_squared_error SALARIES h ==
  mean (map (fun y => y ^ 2) SALARIES) - 2 * h * mean SALARIES + h ^ 2.
Proof.
  intro Hne. unfold mean_squared_error, mean.
  rewrite total_of_squares, !length_map.
  pose proof (count_nonzero SALARIES Hne) as Hn.
  field. exact Hn.
Qed.

(** X6.  The mean squared error at [h] exceeds its value at the mean of the
    data by the square of the distance from [h] to the mean; so the mean
    minimises it, as the notebook's plot shows. *)
Theorem mean_minimises_mean_squared_error (SALARIES : list Q) (h : Q) :
  SALARIES <> [] ->
  mean_squared_error SALARIES h ==
    mean_squared_error SALARIES (mean SALARIES) + (h - mean SALARIES) ^ 2 /\
  mean_squared_error SALARIES (mean SALARIES) <= mean_squared_error SALARIES h.
Proof.
  intro Hne.
  assert (E : mean_squared_error SALARIES h ==
              mean_squared_error SALARIES (mean SALARIES)
              + (h - mean SALARIES) ^ 2).
  { rewrite !mean_squared_error_parabola by exact Hne. ring. }
  split; [exact E|]. rewrite E.
  pose proof (square_nonneg (h - mean SALARIES)) as Hsq.
  set (m := mean_squared_error SALARIES (mean SALARIES)) in *.
  set (x := (h - mean SALARIES) ^ 2) in *.
  lra.
Qed.

(** X7.  [derivative_of_mean_squared_error] is the derivative of
    [mean_squared_error]: moving from [h] by [e] changes the error by
    [e] times the derivative at [h], up to the second-order term [e^2]. *)
Theorem derivative_of_mean_squared_error_correct
        (SALARIES : list Q) (h e : Q) :
  SALARIES <> [] ->
  mean_squared_error SALARIES (h + e) - mean_squared_error SALARIES h ==
  e * derivative_of_mean_squared_error SALARIES h + e ^ 2.
Proof.
  intro Hne.
  rewrite !mean_squared_error_parabola by exact Hne.
  rewrite derivative_of_mean_squared_error_quadratic by exact Hne.
  unfold quadratic_derivative. ring.
Qed.

Lemma Qabs_power_of_nat (a : Q) (k : nat) :
  Qabs (a ^ Z.of_nat k) == Qabs a ^ Z.of_nat k.
Proof.
  induction k as [|k IH]; [reflexivity|].
  rewrite !Qpower_of_nat_S, Qabs_Qmult, IH. reflexivity.
Qed.

(** *** Gradient descent on any derivative of the form [2 * (h - c)] *)

Section Bowl.

Variable d : Q -> Q.
Variable c : Q.
Hypothesis d_bowl : forall h, d h == 2 * (h - c).

Lemma bowl_update (alpha h : Q) :
  update d alpha h - c == (1 - 2 * alpha) * (h - c).
Proof.
  unfold update. cbn [sub mul Q_Num]. rewrite d_bowl. ring.
Qed.

Lemma bowl_candidate (alpha h : Q) (k : nat) :
  candidate d alpha k h - c == (1 - 2 * alpha) ^ Z.of_nat k * (h - c).
Proof.
  induction k as [|k IH].
  - change (candidate d alpha 0 h) with h.
    change ((1 - 2 * alpha) ^ Z.of_nat 0) with 1. ring.
  - change (candidate d alpha (S k) h)
      with (update d alpha (candidate d alpha k h)).
    rewrite bowl_update, IH, Qpower_of_nat_S. ring.
Qed.

(** The size of the step taken from the [k]-th iterate. *)
Lemma bowl_step (alpha h : Q) (k : nat) :
  0 <= alpha ->
  Qabs (alpha * d (candidate d alpha k h)) ==
  2 * alpha * Qabs (1 - 2 * alpha) ^ Z.of_nat k * Qabs (h - c).
Proof.
  intro Hpos. rewrite d_bowl, bowl_candidate.
  rewrite !Qabs_Qmult, Qabs_power_of_nat, (Qabs_pos alpha), (Qabs_pos 2)
    by (assumption || discriminate).
  ring.
Qed.

Lemma bowl_contracts (alpha h : Q) (k : nat) :
  0 <= alpha -> alpha <= 1 ->
  Qabs (candidate d alpha k h - c) <= Qabs (h - c).
Proof.
  intros Hpos Hle. induction k as [|k IH].
  - apply Qle_refl.
  - change (candidate d alpha (S k) h)
      with (update d alpha (candidate d alpha k h)).
    rewrite bowl_update, Qabs_Qmult.
    set (x := Qabs (candidate d alpha k h - c)) in *.
    assert (Hx : 0 <= x) by apply Qabs_nonneg.
    assert (Ha : Qabs (1 - 2 * alpha) <= 1).
    { apply Qabs_Qle_condition. split; lra. }
    assert (Ha0 : 0 <= Qabs (1 - 2 * alpha)) by apply Qabs_nonneg.
    set (a := Qabs (1 - 2 * alpha)) in *.
    apply Qle_trans with x; [|exact IH]. nra.
Qed.

(** Once the step from the last iterate the cap allows is under the
    tolerance, the loop leaves through [break], at a point within
    [tol / (2 alpha)] of [c]. *)
Lemma bowl_stops (alpha tol h_0 : Q) (n : nat) :
  0 < alpha ->
  2 * alpha * Qabs (1 - 2 * alpha) ^ Z.of_nat n * Qabs (h_0 - c) < tol ->
  breaks d alpha tol (S n) h_0 = true /\
  Qabs (candidate d alpha (updates d alpha tol (S n) h_0) h_0 - c)
  < tol / (2 * alpha).
Proof.
  intros Hpos Hsmall.
  assert (Hb : breaks d alpha tol (S n) h_0 = true).
  { destruct (breaks d alpha tol (S n) h_0) eqn:Hb; [reflexivity|].
    exfalso.
    assert (Hfull : ~ (updates d alpha tol (S n) h_0 < S n)%nat).
    { intro Hlt. apply breaks_iff_short in Hlt. congruence. }
    pose proof (updates_le d alpha tol (S n) h_0) as Hle.
    assert (Hlast : converged d alpha tol (candidate d alpha n h_0) = false).
    { apply (updates_before d alpha tol (S n)). lia. }
    apply not_converged_iff in Hlast.
    rewrite bowl_step in Hlast by lra. lra. }
  split; [exact Hb|].
  apply breaks_converged, converged_iff in Hb.
  set (r := candidate d alpha (updates d alpha tol (S n) h_0) h_0) in *.
  rewrite d_bowl in Hb.
  assert (E : Qabs (alpha * (2 * (r - c))) == Qabs (r - c) * (2 * alpha)).
  { rewrite Qmult_assoc, Qabs_Qmult, (Qabs_pos (alpha * 2)) by lra. ring. }
  rewrite E in Hb.
  apply Qlt_shift_div_l; [lra | exact Hb].
Qed.

End Bowl.

Lemma mean_squared_error_excess (SALARIES : list Q) (h : Q) :
  SALARIES <> [] ->
  mean_squared_error SALARIES h ==
  mean_squared_error SALARIES (mean SALARIES) + (h - mean SALARIES) ^ 2.
Proof.
  intro Hne. rewrite !mean_squared_error_parabola by exact Hne. ring.
Qed.

(** X8.  In exact rational arithmetic.  The notebook's run,
    [gradient_descent(derivative_of_mean_squared_error,
    h_0=..., alpha=..., tol=...)]: when the cap is large enough for the step
    to fall under the tolerance, the routine stops before the cap and
    returns a value within [tol / (2 alpha)] of the mean of the data, and
    (for [alpha <= 1]) no farther from the mean than [h_0]. *)
Theorem gradient_descent_finds_the_mean
        (SALARIES : list Q) (h_0 alpha tol : Q) verbose
        (callback : option (Q -> W -> W)) (max_iter : Z) (w_0 : W) :
  SALARIES <> [] ->
  0 < alpha -> alpha <= 1 ->
  (1 <= max_iter)%Z ->
  2 * alpha * Qabs (1 - 2 * alpha) ^ (max_iter - 1)
  * Qabs (h_0 - mean SALARIES) < tol ->
  let d := derivative_of_mean_squared_error SALARIES in
  let run := gradient_descent (returning d) alpha tol verbose callback
                              h_0 max_iter w_0 in
  breaks d alpha tol (Z.to_nat max_iter) h_0 = true /\
  exists r,
    result run = Some r /\
    Qabs (r - mean SALARIES) < tol / (2 * alpha) /\
    Qabs (r - mean SALARIES) <= Qabs (h_0 - mean SALARIES).
Proof.
  intros Hne Hpos Hle Hcap Hsmall d run. subst run.
  assert (Hd : forall h, d h == 2 * (h - mean SALARIES)).
  { intro h. apply derivative_of_mean_squared_error_quadratic, Hne. }
  unfold gradient_descent.
  destruct (Z.to_nat max_iter) as [|n] eqn:En; [lia|].
  assert (Ez : (max_iter - 1)%Z = Z.of_nat n) by lia.
  rewrite Ez in Hsmall.
  destruct (bowl_stops d (mean SALARIES) Hd alpha tol h_0 n Hpos Hsmall)
    as [Hb Hnear].
  split; [exact Hb|].
  eexists. split; [apply for_loop_result|].
  split; [exact Hnear|].
  apply (bowl_contracts d (mean SALARIES) Hd); lra.
Qed.

(** X9.  In exact rational arithmetic, and for non-empty data, one update
    multiplies the excess of the mean squared error over its
    minimum by [(1 - 2 alpha)^2]: the error does not increase for
    [0 <= alpha <= 1] and does not decrease for [alpha >= 1]. *)
Theorem update_scales_excess_error (SALARIES : list Q) (alpha h : Q) :
  SALARIES <> [] ->
  let d := derivative_of_mean_squared_error SALARIES in
  let least := mean_squared_error SALARIES (mean SALARIES) in
  mean_squared_error SALARIES (update d alpha h) - least ==
    (1 - 2 * alpha) ^ 2 * (mean_squared_error SALARIES h - least) /\
  (0 <= alpha -> alpha <= 1 ->
   mean_squared_error SALARIES (update d alpha h)
   <= mean_squared_error SALARIES h) /\
  (1 <= alpha ->
   mean_squared_error SALARIES h
   <= mean_squared_error SALARIES (update d alpha h)).
Proof.
  intros Hne d least. subst least.
  assert (Hd : forall x, d x == 2 * (x - mean SALARIES)).
  { intro x. apply derivative_of_mean_squared_error_quadratic, Hne. }
  pose proof (bowl_update d (mean SALARIES) Hd alpha h) as Hup.
  pose proof (mean_squared_error_excess SALARIES h Hne) as Eh.
  pose proof (mean_squared_error_excess SALARIES (update d alpha h) Hne) as Eu.
  set (m := mean SALARIES) in *.
  set (least := mean_squared_error SALARIES m) in *.
  set (u := update d alpha h) in *.
  set (fu := mean_squared_error SALARIES u) in *.
  set (fh := mean_squared_error SALARIES h) in *.
  assert (Esq : (u - m) ^ 2 == (1 - 2 * alpha) ^ 2 * (h - m) ^ 2).
  { rewrite Hup. ring. }
  assert (Hx : 0 <= (h - m) ^ 2) by apply square_nonneg.
  set (x := (h - m) ^ 2) in *.
  assert (Ea : (1 - 2 * alpha) ^ 2 == 1 - 4 * (alpha * (1 - alpha))) by ring.
  split; [rewrite Eu, Eh, Esq; ring|].
  split.
  - intros H0 H1. rewrite Eu, Eh, Esq, Ea.
    assert (Hp : 0 <= alpha * (1 - alpha)) by nra.
    set (p := alpha * (1 - alpha)) in *. nra.
  - intros H1. rewrite Eu, Eh, Esq, Ea.
    assert (Hp : 0 <= alpha * (alpha - 1)) by nra.
    assert (Ep : alpha * (1 - alpha) == - (alpha * (alpha - 1))) by ring.
    rewrite Ep. set (p := alpha * (alpha - 1)) in *. nra.
Qed.

End MeanSquaredError.

(** ** The polynomial of the numerical-optimisation notebook *)

Section Polynomial.

Open Scope Q_scope.

(** [3*x**7 - 1000*x**2 - 10] *)
Definition our_function (x : Q) : Q := 3 * x ^ 7 - 1000 * x ^ 2 - 10.

Lemma pow_chain_le (m x : Q) :
  0 <= x -> x <= m ->
  x ^ 2 <= m * x /\ x ^ 3 <= m ^ 2 * x /\ x ^ 4 <= m ^ 3 * x /\
  x ^ 5 <= m ^ 4 * x /\ x ^ 6 <= m ^ 5 * x.
Proof.
  intros H0 Hm.
  assert (Hm0 : 0 <= m) by lra.
  assert (H2 : x ^ 2 <= m * x) by (change (x ^ 2) with (x * x); nra).
  assert (A : forall t s, 0 <= t -> t <= s -> x * t <= m * s).
  { intros t s Ht Hts. apply Qle_trans with (m * t); nra. }
  assert (P2 : 0 <= x ^ 2) by (change (x ^ 2) with (x * x); nra).
  assert (H3 : x ^ 3 <= m ^ 2 * x).
  { assert (E : x ^ 3 == x * x ^ 2) by ring.
    assert (E' : m ^ 2 * x == m * (m * x)) by ring.
    rewrite E, E'. apply A; assumption. }
  assert (P3 : 0 <= x ^ 3).
  { assert (E : x ^ 3 == x * x ^ 2) by ring. rewrite E. nra. }
  assert (H4 : x ^ 4 <= m ^ 3 * x).
  { assert (E : x ^ 4 == x * x ^ 3) by ring.
    assert (E' : m ^ 3 * x == m * (m ^ 2 * x)) by ring.
    rewrite E, E'. apply A; assumption. }
  assert (P4 : 0 <= x ^ 4).
  { assert (E : x ^ 4 == x * x ^ 3) by ring. rewrite E. nra. }
  assert (H5 : x ^ 5 <= m ^ 4 * x).
  { assert (E : x ^ 5 == x * x ^ 4) by ring.
    assert (E' : m ^ 4 * x == m * (m ^ 3 * x)) by ring.
    rewrite E, E'. apply A; assumption. }
  assert (P5 : 0 <= x ^ 5).
  { assert (E : x ^ 5 == x * x ^ 4) by ring. rewrite E. nra. }
  assert (H6 : x ^ 6 <= m ^ 5 * x).
  { assert (E : x ^ 6 == x * x ^ 5) by ring.
    assert (E' : m ^ 5 * x == m * (m ^ 4 * x)) by ring.
    rewrite E, E'. apply A; assumption. }
  repeat split; assumption.
Qed.

Lemma pow_chain_ge (m x : Q) :
  0 <= m -> m <= x ->
  m * x <= x ^ 2 /\ m ^ 2 * x <= x ^ 3 /\ m ^ 3 * x <= x ^ 4 /\
  m ^ 4 * x <= x ^ 5 /\ m ^ 5 * x <= x ^ 6.
Proof.
  intros Hm0 Hm.
  assert (H0 : 0 <= x) by lra.
  assert (H2 : m * x <= x ^ 2) by (change (x ^ 2) with (x * x); nra).
  assert (A : forall t s, 0 <= s -> s <= t -> m * s <= x * t).
  { intros t s Hs Hst. apply Qle_trans with (m * t); nra. }
  assert (Q1 : 0 <= m * x) by nra.
  assert (H3 : m ^ 2 * x <= x ^ 3).
  { assert (E : x ^ 3 == x * x ^ 2) by ring.
    assert (E' : m ^ 2 * x == m * (m * x)) by ring.
    rewrite E, E'. apply A; assumption. }
  assert (Q2 : 0 <= m ^ 2 * x).
  { assert (E' : m ^ 2 * x == m * (m * x)) by ring. rewrite E'. nra. }
  assert (H4 : m ^ 3 * x <= x ^ 4).
  { assert (E : x ^ 4 == x * x ^ 3) by ring.
    assert (E' : m ^ 3 * x == m * (m ^ 2 * x)) by ring.
    rewrite E, E'. apply A; assumption. }
  assert (Q3 : 0 <= m ^ 3 * x).
  { assert (E' : m ^ 3 * x == m * (m ^ 2 * x)) by ring. rewrite E'. nra. }
  assert (H5 : m ^ 4 * x <= x ^ 5).
  { assert (E : x ^ 5 == x * x ^ 4) by ring.
    assert (E' : m ^ 4 * x == m * (m ^ 3 * x)) by ring.
    rewrite E, E'. apply A; assumption. }
  assert (Q4 : 0 <= m ^ 4 * x).
  { assert (E' : m ^ 4 * x == m * (m ^ 3 * x)) by ring. rewrite E'. nra. }
  assert (H6 : m ^ 5 * x <= x ^ 6).
  { assert (E : x ^ 6 == x * x ^ 5) by ring.
    assert (E' : m ^ 5 * x == m * (m ^ 4 * x)) by ring.
    rewrite E, E'. apply A; assumption. }
  repeat split; assumption.
Qed.

(** The slope of the chord of [our_function] between [a] and [b]. *)
Definition slope (a b : Q) : Q :=
  3 * (a ^ 6 + a ^ 5 * b + a ^ 4 * b ^ 2 + a ^ 3 * b ^ 3
       + a ^ 2 * b ^ 4 + a * b ^ 5 + b ^ 6)
  - 1000 * (a + b).

Lemma our_function_difference (a b : Q) :
  our_function b - our_function a == (b - a) * slope a b.
Proof. unfold our_function, slope. ring. Qed.

Lemma mul_le (u v U V : Q) :
  0 <= u -> u <= U -> 0 <= v -> v <= V -> u * v <= U * V.
Proof. intros. apply Qle_trans with (U * v); nra. Qed.


Lemma pow_upper (m x : Q) :
  0 <= x -> x <= m ->
  (0 <= x ^ 2 /\ 0 <= x ^ 3 /\ 0 <= x ^ 4 /\ 0 <= x ^ 5) /\
  (x ^ 2 <= m ^ 2 /\ x ^ 3 <= m ^ 3 /\ x ^ 4 <= m ^ 4 /\ x ^ 5 <= m ^ 5).
Proof.
  intros H0 Hm.
  destruct (pow_chain_le m x H0 Hm) as [A2 [A3 [A4 [A5 A6]]]].
  assert (Hm0 : 0 <= m) by lra.
  assert (P2 : 0 <= x ^ 2) by (change (x ^ 2) with (x * x); nra).
  assert (P3 : 0 <= x ^ 3).
  { assert (E : x ^ 3 == x * x ^ 2) by ring. rewrite E. nra. }
  assert (P4 : 0 <= x ^ 4).
  { assert (E : x ^ 4 == x * x ^ 3) by ring. rewrite E. nra. }
  assert (P5 : 0 <= x ^ 5).
  { assert (E : x ^ 5 == x * x ^ 4) by ring. rewrite E. nra. }
  assert (M1 : 0 <= m ^ 1) by (change (m ^ 1) with m; exact Hm0).
  assert (M2 : 0 <= m ^ 2) by (change (m ^ 2) with (m * m); nra).
  assert (M3 : 0 <= m ^ 3).
  { assert (E : m ^ 3 == m * m ^ 2) by ring. rewrite E. nra. }
  assert (M4 : 0 <= m ^ 4).
  { assert (E : m ^ 4 == m * m ^ 3) by ring. rewrite E. nra. }
  split; [repeat split; assumption|].
  assert (U : forall c, 0 <= c -> c * x <= c * m) by (intros; nra).
  repeat split.
  - apply Qle_trans with (m * x); [exact A2|].
    assert (E : m ^ 2 == m * m) by ring. rewrite E. apply U, Hm0.
  - apply Qle_trans with (m ^ 2 * x); [exact A3|].
    assert (E : m ^ 3 == m ^ 2 * m) by ring. rewrite E. apply U, M2.
  - apply Qle_trans with (m ^ 3 * x); [exact A4|].
    assert (E : m ^ 4 == m ^ 3 * m) by ring. rewrite E. apply U, M3.
  - apply Qle_trans with (m ^ 4 * x); [exact A5|].
    assert (E : m ^ 5 == m ^ 4 * m) by ring. rewrite E. apply U, M4.
Qed.

Lemma slope_nonpos (a b : Q) :
  0 <= a -> a <= 248 # 100 -> 0 <= b -> b <= 248 # 100 -> slope a b <= 0.
Proof.
  intros Ha0 Ha Hb0 Hb.
  destruct (pow_chain_le (248 # 100) a Ha0 Ha) as [A2 [A3 [A4 [A5 A6]]]].
  destruct (pow_chain_le (248 # 100) b Hb0 Hb) as [B2 [B3 [B4 [B5 B6]]]].
  destruct (pow_upper (248 # 100) a Ha0 Ha)
    as [[PA2 [PA3 [PA4 PA5]]] [UA2 [UA3 [UA4 UA5]]]].
  destruct (pow_upper (248 # 100) b Hb0 Hb)
    as [[PB2 [PB3 [PB4 PB5]]] [UB2 [UB3 [UB4 UB5]]]].
  set (m := 248 # 100) in *.
  assert (Hm : 0 <= m) by (unfold m; lra).
  assert (T51 : a ^ 5 * b <= (m ^ 4 * a) * m) by (apply mul_le; assumption).
  assert (T42 : a ^ 4 * b ^ 2 <= (m ^ 3 * a) * m ^ 2) by (apply mul_le; assumption).
  assert (T33 : a ^ 3 * b ^ 3 <= (m ^ 2 * a) * m ^ 3) by (apply mul_le; assumption).
  assert (T33' : a ^ 3 * b ^ 3 <= m ^ 3 * (m ^ 2 * b)) by (apply mul_le; assumption).
  assert (T24 : a ^ 2 * b ^ 4 <= m ^ 2 * (m ^ 3 * b)) by (apply mul_le; assumption).
  assert (T15 : a * b ^ 5 <= m * (m ^ 4 * b)) by (apply mul_le; assumption).
  unfold slope. unfold m in *. lra.
Qed.

Lemma pow_lower (m x : Q) :
  0 <= m -> m <= x ->
  (0 <= m * x /\ 0 <= m ^ 2 * x /\ 0 <= m ^ 3 * x /\ 0 <= m ^ 4 * x) /\
  (0 <= m ^ 2 /\ 0 <= m ^ 3 /\ 0 <= m ^ 4 /\ 0 <= m ^ 5) /\
  (m ^ 2 <= x ^ 2 /\ m ^ 3 <= x ^ 3 /\ m ^ 4 <= x ^ 4 /\ m ^ 5 <= x ^ 5).
Proof.
  intros Hm0 Hm.
  destruct (pow_chain_ge m x Hm0 Hm) as [A2 [A3 [A4 [A5 A6]]]].
  assert (H0 : 0 <= x) by lra.
  assert (M2 : 0 <= m ^ 2) by (change (m ^ 2) with (m * m); nra).
  assert (M3 : 0 <= m ^ 3).
  { assert (E : m ^ 3 == m * m ^ 2) by ring. rewrite E. nra. }
  assert (M4 : 0 <= m ^ 4).
  { assert (E : m ^ 4 == m * m ^ 3) by ring. rewrite E. nra. }
  assert (M5 : 0 <= m ^ 5).
  { assert (E : m ^ 5 == m * m ^ 4) by ring. rewrite E. nra. }
  assert (L : forall c, 0 <= c -> c * m <= c * x) by (intros; nra).
  assert (N : forall c, 0 <= c -> 0 <= c * x) by (intros; nra).
  split; [repeat split; apply N; assumption|].
  split; [repeat split; assumption|].
  repeat split.
  - apply Qle_trans with (m * x); [|exact A2].
    assert (E : m ^ 2 == m * m) by ring. rewrite E. apply L, Hm0.
  - apply Qle_trans with (m ^ 2 * x); [|exact A3].
    assert (E : m ^ 3 == m ^ 2 * m) by ring. rewrite E. apply L, M2.
  - apply Qle_trans with (m ^ 3 * x); [|exact A4].
    assert (E : m ^ 4 == m ^ 3 * m) by ring. rewrite E. apply L, M3.
  - apply Qle_trans with (m ^ 4 * x); [|exact A5].
    assert (E : m ^ 5 == m ^ 4 * m) by ring. rewrite E. apply L, M4.
Qed.

Lemma slope_nonneg (a b : Q) :
  249 # 100 <= a -> 249 # 100 <= b -> 0 <= slope a b.
Proof.
  intros Ha Hb.
  assert (Hm : 0 <= 249 # 100) by discriminate.
  destruct (pow_chain_ge (249 # 100) a Hm Ha) as [A2 [A3 [A4 [A5 A6]]]].
  destruct (pow_chain_ge (249 # 100) b Hm Hb) as [B2 [B3 [B4 [B5 B6]]]].
  destruct (pow_lower (249 # 100) a Hm Ha)
    as [[NA1 [NA2 [NA3 NA4]]] [[M2 [M3 [M4 M5]]] [LA2 [LA3 [LA4 LA5]]]]].
  destruct (pow_lower (249 # 100) b Hm Hb)
    as [[NB1 [NB2 [NB3 NB4]]] [_ [LB2 [LB3 [LB4 LB5]]]]].
  set (m := 249 # 100) in *.
  assert (T51 : (m ^ 4 * a) * m <= a ^ 5 * b) by (apply mul_le; assumption).
  assert (T42 : (m ^ 3 * a) * m ^ 2 <= a ^ 4 * b ^ 2) by (apply mul_le; assumption).
  assert (T33 : (m ^ 2 * a) * m ^ 3 <= a ^ 3 * b ^ 3) by (apply mul_le; assumption).
  assert (T33' : m ^ 3 * (m ^ 2 * b) <= a ^ 3 * b ^ 3) by (apply mul_le; assumption).
  assert (T24 : m ^ 2 * (m ^ 3 * b) <= a ^ 2 * b ^ 4) by (apply mul_le; assumption).
  assert (T15 : m * (m ^ 4 * b) <= a * b ^ 5) by (apply mul_le; assumption).
  unfold slope. unfold m in *. lra.
Qed.

(** X15.  In exact rational arithmetic (no rounding, no overflow),
    [our_function] decreases on [0, 2.48] and increases from 2.49 on: on
    the non-negative numbers it has a single valley, whose bottom lies
    between 2.48 and 2.49 (where the notebook's minimiser, 2.487, is). *)
Theorem our_function_valley (a b : Q) :
  a <= b ->
  (0 <= a -> b <= 248 # 100 -> our_function b <= our_function a) /\
  (249 # 100 <= a -> our_function a <= our_function b).
Proof.
  intro Hab. pose proof (our_function_difference a b) as E. split.
  - intros Ha Hb.
    assert (Hs : slope a b <= 0) by (apply slope_nonpos; lra).
    set (s := slope a b) in *. nra.
  - intros Ha.
    assert (Hs : 0 <= slope a b) by (apply slope_nonneg; lra).
    set (s := slope a b) in *. nra.
Qed.

(** X16.  [our_function] has no least value: it goes below any bound on the
    negative numbers, so the minimiser the notebook finds is a local one. *)
Theorem our_function_unbounded_below (B : Q) :
  exists x, x < 0 /\ our_function x < B.
Proof.
  exists (- Qabs B - 1).
  pose proof (Qabs_nonneg B) as HB. pose proof (Qle_Qabs (- B)) as HnB.
  rewrite Qabs_opp in HnB.
  set (x := - Qabs B - 1).
  assert (Hx : x <= -1) by (unfold x; lra).
  split; [lra|].
  assert (H2 : 1 <= x ^ 2) by (change (x ^ 2) with (x * x); nra).
  assert (H4 : 1 <= x ^ 4).
  { assert (E : x ^ 4 == x ^ 2 * x ^ 2) by ring. rewrite E.
    set (t := x ^ 2) in *. nra. }
  assert (H6 : 1 <= x ^ 6).
  { assert (E : x ^ 6 == x ^ 4 * x ^ 2) by ring. rewrite E.
    set (t := x ^ 2) in *. set (u := x ^ 4) in *. nra. }
  assert (H7 : x ^ 7 <= x).
  { assert (E : x ^ 7 == x * x ^ 6) by ring. rewrite E.
    set (t := x ^ 6) in *. nra. }
  unfold our_function. set (t := x ^ 2) in *. set (u := x ^ 7) in *.
  unfold x in *. lra.
Qed.

End Polynomial.

(** ** Least-squares notebooks: design matrix, predictions, classifier *)

Section LinearModels.

Open Scope Q_scope.

(** [u @ v] for two vectors; numpy raises when their lengths differ. *)
Fixpoint dot (u v : list Q) : option Q :=
  match u, v with
  | [], [] => Some 0
  | x :: u', y :: v' => option_map (fun s => x * y + s) (dot u' v')
  | _, _ => None
  end.

(** [X @ b] for a matrix given by its rows. *)
Fixpoint matvec (X : list (list Q)) (b : list Q) : option (list Q) :=
  match X with
  | [] => Some []
  | row :: X' =>
      match dot row b, matvec X' b with
      | Some s, Some r => Some (s :: r)
      | _, _ => None
      end
  end.

(** [np.column_stack((np.ones_like(x), x, x**2, x**3, x**4))] *)
Definition design_matrix (x : list Q) : list (list Q) :=
  map (fun xi => [1; xi; xi ^ 2; xi ^ 3; xi ^ 4]) x.

(** [b[0] + b[1]*x + b[2]*x**2 + b[3]*x**3 + b[4]*x**4]; indexing past the
    end of [b] raises. *)
Definition y_pred (b x : list Q) : option (list Q) :=
  match nth_error b 0, nth_error b 1, nth_error b 2,
        nth_error b 3, nth_error b 4 with
  | Some b0, Some b1, Some b2, Some b3, Some b4 =>
      Some (map (fun xi => b0 + b1 * xi + b2 * xi ^ 2 + b3 * xi ^ 3
                           + b4 * xi ^ 4) x)
  | _, _, _, _, _ => None
  end.

(** X17.  The two ways the notebook computes the fitted values agree: the
    product [X @ b] of the design matrix with the coefficients is, entry by
    entry, the polynomial [b[0] + b[1]*x + ... + b[4]*x**4]. *)
Theorem design_matrix_predicts (b x : list Q) :
  length b = 5%nat ->
  exists v p,
    matvec (design_matrix x) b = Some v /\
    y_pred b x = Some p /\
    Forall2 Qeq v p.
Proof.
  intro Hb.
  destruct b as [|b0 [|b1 [|b2 [|b3 [|b4 [|]]]]]]; try discriminate.
  unfold y_pred. cbn [nth_error].
  induction x as [|xi x [v [p [Hv [Hp Hvp]]]]].
  - exists [], []. repeat split. constructor.
  - injection Hp as <-.
    eexists. eexists. split.
    + cbn [design_matrix map matvec dot option_map].
      fold (design_matrix x). rewrite Hv. reflexivity.
    + split; [reflexivity|].
      cbn [map]. constructor; [ring | exact Hvp].
Qed.

(** A shorter or longer [b] makes [X @ b] raise as soon as there is a row. *)
Lemma design_matrix_shape (b x : list Q) :
  length b <> 5%nat -> x <> [] -> matvec (design_matrix x) b = None.
Proof.
  intros Hb Hx. destruct x as [|xi x]; [contradiction|].
  cbn [design_matrix map matvec].
  destruct b as [|b0 [|b1 [|b2 [|b3 [|b4 [|b5 b]]]]]]; cbn; try reflexivity.
  exfalso. apply Hb. reflexivity.
Qed.

(** [np.column_stack(xx**p for p in range(22)) @ b[::-1]].  The columns are
    handed to [np.column_stack] as a generator expression, not as a list.
    What happens then is numpy's choice, not the notebook's: a numpy that
    still stacks a non-sequence iterable (with a deprecation warning)
    builds the matrix, one that insists on a sequence raises [TypeError].
    [stacks_generators] says which numpy runs the cell. *)
Definition predictions (stacks_generators : bool) (b xx : list Q)
  : option (list Q) :=
  if stacks_generators
  then matvec (map (fun x => map (fun p => x ^ Z.of_nat p) (seq 0 22)) xx)
              (rev b)
  else None.

(** The polynomial with coefficients [b], highest degree first, at [x]. *)
Definition horner (b : list Q) (x : Q) : Q :=
  fold_left (fun acc c => acc * x + c) b 0.

(** The polynomial with coefficients [c], lowest degree first, at [x]. *)
Fixpoint ascending (c : list Q) (x : Q) : Q :=
  match c with
  | [] => 0
  | c0 :: c' => c0 + x * ascending c' x
  end.

Lemma dot_powers (x : Q) (c : list Q) :
  forall k : nat,
  exists s, dot (map (fun p => x ^ Z.of_nat p) (seq k (length c))) c = Some s /\
            s == x ^ Z.of_nat k * ascending c x.
Proof.
  induction c as [|c0 c IH]; intro k.
  - exists 0. split; [reflexivity|]. cbn [ascending]. ring.
  - destruct (IH (S k)) as [s [Hs Es]].
    cbn [length seq map dot]. rewrite Hs. cbn [option_map].
    eexists. split; [reflexivity|].
    rewrite Es, Qpower_of_nat_S. cbn [ascending]. ring.
Qed.

Lemma ascending_app (c : list Q) (c1 x : Q) :
  ascending (c ++ [c1]) x == ascending c x + x ^ Z.of_nat (length c) * c1.
Proof.
  induction c as [|c0 c IH].
  - cbn. ring.
  - cbn [app ascending length]. rewrite IH, Qpower_of_nat_S. ring.
Qed.

Lemma horner_ascending (b : list Q) (x : Q) :
  forall acc,
    fold_left (fun a c => a * x + c) b acc ==
    acc * x ^ Z.of_nat (length b) + ascending (rev b) x.
Proof.
  induction b as [|c b IH]; intro acc.
  - cbn. ring.
  - cbn [fold_left rev length]. rewrite IH, ascending_app, length_rev,
      Qpower_of_nat_S. ring.
Qed.

(** X18.  Under a numpy that stacks a generator, and in exact arithmetic,
    the plotted predictions are the values of the polynomial whose
    coefficients [b] lists from the highest degree down, the order in which
    [np.polyfit] returns them.  Under a numpy that requires a sequence the
    line raises and there are no predictions. *)
Theorem predictions_evaluate_polynomial (b xx : list Q) :
  length b = 22%nat ->
  (exists v, predictions true b xx = Some v /\
             Forall2 Qeq v (map (horner b) xx)) /\
  predictions false b xx = None.
Proof.
  intro Hb. split; [|reflexivity]. unfold predictions.
  induction xx as [|x xx [v [Hv Hvp]]].
  - exists []. split; [reflexivity | constructor].
  - destruct (dot_powers x (rev b) 0) as [s [Hs Es]].
    rewrite length_rev, Hb in Hs.
    exists (s :: v). split.
    + cbn [map matvec]. rewrite Hs, Hv. reflexivity.
    + cbn [map]. constructor; [|exact Hvp].
      unfold horner. rewrite horner_ascending, Es.
      change (x ^ Z.of_nat 0) with 1. ring.
Qed.

(** *** The 7-versus-3 classifier *)

(** [np.column_stack([np.ones(X.shape[0]), X])] *)
Definition with_ones (X : list (list Q)) : list (list Q) := map (cons 1) X.

(** [np.vstack([testing_sevens, testing_threes])] with the column of ones. *)
Definition X_test (testing_sevens testing_threes : list (list Q)) :=
  with_ones (testing_sevens ++ testing_threes).

(** [np.concatenate([np.ones(test_is_seven.sum()),
                     np.zeros(test_is_three.sum())])] *)
Definition y_test (testing_sevens testing_threes : list (list Q)) : list Q :=
  repeat 1 (length testing_sevens) ++ repeat 0 (length testing_threes).

(** [7 if w @ x > .5 else 3] *)
Definition prediction (w x : list Q) : option Z :=
  option_map (fun s => if Qlt_bool (1 # 2) s then 7%Z else 3%Z) (dot w x).

(** [(s > .5).astype(int)] *)
Definition above_half (s : Q) : Q := if Qlt_bool (1 # 2) s then 1 else 0.

(** [a != b] on numbers. *)
Definition differs (a b : Q) : bool := negb (Qeq_bool a b).

(** numpy's broadcasting of a vector against one of length [n]: equal
    lengths pass, a single element is repeated, anything else raises. *)
Definition broadcast (n : nat) (y : list Q) : option (list Q) :=
  if (length y =? n)%nat then Some y
  else match y with
       | [y0] => Some (repeat y0 n)
       | _ => None
       end.

(** [X[mask]]: the rows at which the mask is true. *)
Fixpoint select (rows : list (list Q)) (mask : list bool) : list (list Q) :=
  match rows, mask with
  | r :: rows', m :: mask' =>
      if m then r :: select rows' mask' else select rows' mask'
  | _, _ => []
  end.

(** [a != b] on vectors, entry by entry. *)
Fixpoint unequal (a b : list Q) : list bool :=
  match a, b with
  | x :: a', y :: b' => differs x y :: unequal a' b'
  | _, _ => []
  end.

(** [X_test[((X_test @ w) > .5).astype(int) != y_test]] *)
Definition misclassified (X_test : list (list Q)) (w y_test : list Q)
  : option (list (list Q)) :=
  match matvec X_test w with
  | None => None
  | Some scores =>
      match broadcast (length scores) y_test with
      | None => None
      | Some y => Some (select X_test (unequal (map above_half scores) y))
      end
  end.

(** The rows the rule [prediction] assigns the digit to. *)
Definition predicted (w : list Q) (digit : Z) (x : list Q) : bool :=
  match prediction w x with
  | Some p => (p =? digit)%Z
  | None => false
  end.

Lemma dot_comm (u v : list Q) :
  forall s, dot u v = Some s -> exists s', dot v u = Some s' /\ s == s'.
Proof.
  revert v. induction u as [|x u IH]; intros [|y v] s Hs; try discriminate.
  - exists 0. injection Hs as <-. split; reflexivity.
  - cbn [dot] in *. destruct (dot u v) as [t|] eqn:E; [|discriminate].
    destruct (IH v t E) as [t' [Ht' Ett']]. rewrite Ht'.
    injection Hs as <-. eexists. split; [reflexivity|]. cbn. rewrite Ett'. ring.
Qed.

Lemma dot_defined (u v : list Q) :
  length u = length v -> exists s, dot u v = Some s.
Proof.
  revert v. induction u as [|x u IH]; intros [|y v] Hl; try discriminate.
  - exists 0. reflexivity.
  - injection Hl as Hl. destruct (IH v Hl) as [s Hs].
    cbn [dot]. rewrite Hs. eexists. reflexivity.
Qed.

Lemma Qlt_bool_compat (a s s' : Q) : s == s' -> Qlt_bool a s = Qlt_bool a s'.
Proof.
  intro E. destruct (Qlt_bool a s') eqn:H'.
  - apply Qlt_bool_iff. apply Qlt_bool_iff in H'. rewrite E. exact H'.
  - destruct (Qlt_bool a s) eqn:H; [|reflexivity].
    apply Qlt_bool_iff in H. rewrite E in H. apply Qlt_bool_iff in H. congruence.
Qed.

Lemma matvec_app (A B : list (list Q)) (w : list Q) :
  matvec (A ++ B) w =
  match matvec A w, matvec B w with
  | Some a, Some b => Some (a ++ b)
  | _, _ => None
  end.
Proof.
  induction A as [|row A IH]; cbn [app matvec].
  - destruct (matvec B w); reflexivity.
  - rewrite IH. destruct (dot row w); [|reflexivity].
    destruct (matvec A w); [|reflexivity].
    destruct (matvec B w); reflexivity.
Qed.

Lemma unequal_app (a1 a2 b1 b2 : list Q) :
  length a1 = length b1 ->
  unequal (a1 ++ a2) (b1 ++ b2) = unequal a1 b1 ++ unequal a2 b2.
Proof.
  revert b1. induction a1 as [|x a1 IH]; intros [|y b1] Hl; try discriminate.
  - reflexivity.
  - injection Hl as Hl. cbn [app unequal]. rewrite IH by exact Hl. reflexivity.
Qed.

Lemma unequal_length (a b : list Q) :
  length a = length b -> length (unequal a b) = length a.
Proof.
  revert b. induction a as [|x a IH]; intros [|y b] Hl; try discriminate.
  - reflexivity.
  - injection Hl as Hl. cbn [unequal length]. rewrite IH by exact Hl. reflexivity.
Qed.

Lemma select_app (r1 r2 : list (list Q)) (m1 m2 : list bool) :
  length r1 = length m1 ->
  select (r1 ++ r2) (m1 ++ m2) = select r1 m1 ++ select r2 m2.
Proof.
  revert m1. induction r1 as [|r r1 IH]; intros [|m m1] Hl; try discriminate.
  - reflexivity.
  - injection Hl as Hl. cbn [app select]. rewrite IH by exact Hl.
    destruct m; reflexivity.
Qed.

(** One block of rows, all carrying the same label. *)
Lemma block_scores (w : list Q) (lab : Q) (digit : Z) (rows : list (list Q)) :
  (forall s, differs (above_half s) lab
             = ((if Qlt_bool (1 # 2) s then 7 else 3) =? digit)%Z) ->
  (forall x, In x rows -> length x = length w) ->
  exists scores,
    matvec rows w = Some scores /\
    length scores = length rows /\
    select rows (unequal (map above_half scores) (repeat lab (length rows)))
    = filter (predicted w digit) rows.
Proof.
  intros Hlab. induction rows as [|x rows IH]; intro Hlen.
  - exists []. repeat split.
  - destruct IH as [scores [Hm [Hl Hs]]].
    { intros x' Hx'. apply Hlen. right. exact Hx'. }
    destruct (dot_defined x w) as [s Hdot]; [apply Hlen; left; reflexivity|].
    destruct (dot_comm x w s Hdot) as [s' [Hdot' Ess']].
    exists (s :: scores). cbn [matvec]. rewrite Hdot, Hm.
    split; [reflexivity|]. split; [cbn [length]; congruence|].
    cbn [length repeat map unequal select filter]. rewrite Hs.
    assert (Ep : predicted w digit x = differs (above_half s) lab).
    { unfold predicted, prediction. rewrite Hdot'. cbn [option_map].
      rewrite Hlab, <- (Qlt_bool_compat (1 # 2) s s' Ess'). reflexivity. }
    rewrite Ep. reflexivity.
Qed.

(** X19.  With the test set stacked as the notebook does (sevens first, labelled
    1, then threes, labelled 0), the rows selected as misclassified are
    exactly the sevens the rule [prediction] calls a 3 followed by the
    threes it calls a 7. *)
Theorem misclassified_are_wrong_predictions
        (testing_sevens testing_threes : list (list Q)) (w : list Q) :
  (forall x, In x (testing_sevens ++ testing_threes) ->
             S (length x) = length w) ->
  misclassified (X_test testing_sevens testing_threes) w
                (y_test testing_sevens testing_threes)
  = Some (filter (predicted w 3) (with_ones testing_sevens)
          ++ filter (predicted w 7) (with_ones testing_threes)).
Proof.
  intro Hshape.
  assert (Hrows : forall rows,
             (forall x, In x rows -> In x (testing_sevens ++ testing_threes)) ->
             forall x, In x (with_ones rows) -> length x = length w).
  { intros rows Hsub x Hx. unfold with_ones in Hx.
    apply in_map_iff in Hx. destruct Hx as [x0 [<- Hx0]].
    cbn [length]. apply Hshape, Hsub, Hx0. }
  destruct (block_scores w 1 3 (with_ones testing_sevens))
    as [s7 [Hm7 [Hl7 Hs7]]].
  { intro s. unfold above_half. destruct (Qlt_bool (1 # 2) s); reflexivity. }
  { apply Hrows. intros x Hx. apply in_or_app. left. exact Hx. }
  destruct (block_scores w 0 7 (with_ones testing_threes))
    as [s3 [Hm3 [Hl3 Hs3]]].
  { intro s. unfold above_half. destruct (Qlt_bool (1 # 2) s); reflexivity. }
  { apply Hrows. intros x Hx. apply in_or_app. right. exact Hx. }
  unfold misclassified, X_test, y_test, with_ones in *.
  rewrite map_app, matvec_app, Hm7, Hm3.
  rewrite length_map in Hl7, Hl3, Hs7, Hs3.
  unfold broadcast.
  assert (Hy : Nat.eqb
                 (length (repeat 1 (length testing_sevens)
                          ++ repeat 0 (length testing_threes)))
                 (length (s7 ++ s3)) = true).
  { apply Nat.eqb_eq. rewrite !length_app, !repeat_length. congruence. }
  rewrite Hy.
  cbv beta iota. f_equal.
  rewrite map_app, unequal_app, select_app.
  - rewrite Hs7, Hs3. reflexivity.
  - rewrite unequal_length; rewrite !length_map, ?repeat_length; congruence.
  - rewrite length_map, repeat_length. exact Hl7.
Qed.

End LinearModels.

(** ** Training by the normal equations *)

Section LeastSquares.

Open Scope Q_scope.

(** The [j]-th column of a matrix given by its rows. *)
Definition column (j : nat) (X : list (list Q)) : list Q :=
  map (fun row => nth j row 0) X.

(** [X.T]: the columns of [X] as rows. *)
Definition transpose (X : list (list Q)) : list (list Q) :=
  match X with
  | [] => []
  | row :: _ => map (fun j => column j X) (seq 0 (length row))
  end.

(** All the results, or the first failure. *)
Fixpoint collect {A : Type} (l : list (option A)) : option (list A) :=
  match l with
  | [] => Some []
  | Some a :: l' => option_map (cons a) (collect l')
  | None :: _ => None
  end.

(** [A @ B] for two matrices. *)
Definition matmul (A B : list (list Q)) : option (list (list Q)) :=
  collect (map (fun ra => collect (map (fun cb => dot ra cb) (transpose B))) A).

(** [np.linalg.solve(A, c)] returns a solution [b] of [A @ b = c]. *)
Definition solves (A : list (list Q)) (c b : list Q) : Prop :=
  exists g, matvec A b = Some g /\ Forall2 Qeq g c.

(** The sum of the squared differences between predictions and targets. *)
Fixpoint squared_error (p y : list Q) : Q :=
  match p, y with
  | pi :: p', yi :: y' => (pi - yi) ^ 2 + squared_error p' y'
  | _, _ => 0
  end.

(** *** A total reading of the same operations, for well-shaped data *)

Fixpoint tdot (u v : list Q) : Q :=
  match u, v with
  | x :: u', y :: v' => x * y + tdot u' v'
  | _, _ => 0
  end.

Lemma dot_tdot (u v : list Q) :
  length u = length v -> dot u v = Some (tdot u v).
Proof.
  revert v. induction u as [|x u IH]; intros [|y v] Hl; try discriminate.
  - reflexivity.
  - injection Hl as Hl. cbn [dot tdot]. rewrite IH by exact Hl. reflexivity.
Qed.

Lemma dot_length (u v : list Q) (s : Q) :
  dot u v = Some s -> length u = length v.
Proof.
  revert v s. induction u as [|x u IH]; intros [|y v] s Hs; try discriminate.
  - reflexivity.
  - cbn [dot] in Hs. destruct (dot u v) eqn:E; [|discriminate].
    cbn [length]. f_equal. apply (IH v q E).
Qed.

Lemma collect_map_some {A B : Type} (f : A -> option B) (g : A -> B)
      (l : list A) :
  (forall a, In a l -> f a = Some (g a)) ->
  collect (map f l) = Some (map g l).
Proof.
  intro Hf. induction l as [|a l IH]; [reflexivity|].
  cbn [map collect]. rewrite (Hf a) by (left; reflexivity).
  rewrite IH; [reflexivity|]. intros a' Ha'. apply Hf. right. exact Ha'.
Qed.

Lemma matvec_collect (X : list (list Q)) (b : list Q) :
  matvec X b = collect (map (fun row => dot row b) X).
Proof.
  induction X as [|row X IH]; [reflexivity|].
  cbn [matvec map collect]. rewrite IH.
  destruct (dot row b); [|reflexivity].
  destruct (collect (map (fun row0 => dot row0 b) X)); reflexivity.
Qed.

Lemma matvec_total (X : list (list Q)) (b : list Q) :
  (forall row, In row X -> length row = length b) ->
  matvec X b = Some (map (fun row => tdot row b) X).
Proof.
  intro Hs. rewrite matvec_collect. apply collect_map_some.
  intros row Hrow. apply dot_tdot, Hs, Hrow.
Qed.

Lemma tdot_comm (u v : list Q) : tdot u v == tdot v u.
Proof.
  revert v. induction u as [|x u IH]; intros [|y v]; cbn [tdot];
    try reflexivity.
  rewrite IH. ring.
Qed.

Lemma tdot_map_ext {A : Type} (f g : A -> Q) (l : list A) :
  (forall a, In a l -> f a == g a) ->
  forall v, tdot v (map f l) == tdot v (map g l).
Proof.
  intro Hfg. induction l as [|a l IH]; intros [|x v]; cbn [map tdot];
    try reflexivity.
  rewrite (Hfg a) by (left; reflexivity).
  rewrite IH; [reflexivity|]. intros a' Ha'. apply Hfg. right. exact Ha'.
Qed.

Lemma tdot_map_plus {A : Type} (f g : A -> Q) (k : Q) (l : list A) :
  forall v,
    tdot v (map (fun a => f a * k + g a) l) ==
    k * tdot v (map f l) + tdot v (map g l).
Proof.
  induction l as [|a l IH]; intros [|x v]; cbn [map tdot]; try ring.
  rewrite IH. ring.
Qed.

Lemma tdot_map_zero {A : Type} (l : list A) :
  forall v, tdot v (map (fun _ => 0) l) == 0.
Proof.
  induction l as [|a l IH]; intros [|x v]; cbn [map tdot]; try reflexivity.
  rewrite IH. ring.
Qed.

Lemma map_nth_seq (row : list Q) (s : nat) :
  map (fun j => nth (j - s) row 0) (seq s (length row)) = row.
Proof.
  revert s. induction row as [|x row IH]; intro s; [reflexivity|].
  cbn [length seq map]. rewrite Nat.sub_diag. cbn [nth]. f_equal.
  rewrite <- (IH (S s)) at 2. apply map_ext_in.
  intros j Hj. apply in_seq in Hj.
  replace (j - s)%nat with (S (j - S s)) by lia. reflexivity.
Qed.

Lemma entries_of_row (row : list Q) :
  map (fun j => nth j row 0) (seq 0 (length row)) = row.
Proof.
  rewrite <- (map_nth_seq row 0) at 2. apply map_ext.
  intro j. rewrite Nat.sub_0_r. reflexivity.
Qed.

(** [r . (X v) = v . (X.T r)] *)
Lemma tdot_adjoint (m : nat) (v : list Q) (X : list (list Q)) :
  (forall row, In row X -> length row = m) ->
  forall r, length r = length X ->
    tdot r (map (fun row => tdot row v) X) ==
    tdot v (map (fun j => tdot (column j X) r) (seq 0 m)).
Proof.
  intro Hs. induction X as [|row X IH]; intros [|r0 r] Hl; try discriminate.
  - cbn [map tdot column]. rewrite tdot_map_zero. reflexivity.
  - injection Hl as Hl. cbn [map tdot column].
    rewrite IH; [|intros row' H'; apply Hs; right; exact H' | exact Hl].
    fold (column 0 X).
    rewrite (tdot_map_ext
               (fun j => nth j row 0 * r0 + tdot (map (fun row0 => nth j row0 0) X) r)
               (fun j => nth j row 0 * r0 + tdot (column j X) r))
      by (intros; reflexivity).
    rewrite (tdot_map_plus (fun j => nth j row 0)
                           (fun j => tdot (column j X) r) r0).
    rewrite <- (Hs row) by (left; reflexivity).
    rewrite entries_of_row, (tdot_comm v row). ring.
Qed.

Lemma squared_error_nonneg (p y : list Q) : 0 <= squared_error p y.
Proof.
  revert y. induction p as [|pi p IH]; intros [|yi y]; cbn [squared_error];
    try apply Qle_refl.
  specialize (IH y).
  pose proof (square_nonneg (pi - yi)) as Hsq.
  set (s := (pi - yi) ^ 2) in *. lra.
Qed.

Lemma squared_error_expand (p' p y : list Q) :
  length p' = length p -> length p = length y ->
  squared_error p' y ==
  squared_error p y + squared_error p' p
  + 2 * (tdot p' p - tdot p' y - tdot p p + tdot p y).
Proof.
  revert p y. induction p' as [|a p' IH]; intros [|b p] [|c y] H1 H2;
    try discriminate.
  - cbn. ring.
  - injection H1 as H1. injection H2 as H2.
    cbn [squared_error tdot]. rewrite (IH p y H1 H2). ring.
Qed.

Lemma matmul_gram (X : list (list Q)) (m : nat) :
  X <> [] ->
  (forall row, In row X -> length row = m) ->
  transpose X = map (fun j => column j X) (seq 0 m) /\
  matmul (transpose X) X =
  Some (map (fun j => map (fun k => tdot (column j X) (column k X)) (seq 0 m))
            (seq 0 m)).
Proof.
  intros Hne Hs.
  assert (Ht : transpose X = map (fun j => column j X) (seq 0 m)).
  { destruct X as [|row X]; [contradiction|]. unfold transpose.
    rewrite (Hs row) by (left; reflexivity). reflexivity. }
  split; [exact Ht|].
  unfold matmul. rewrite Ht, map_map.
  apply collect_map_some. intros j _. rewrite map_map.
  apply collect_map_some. intros k _.
  apply dot_tdot. unfold column. rewrite !length_map. reflexivity.
Qed.

(** X20.  The training step [np.linalg.solve(X.T @ X, X.T @ y)]: a vector
    [b] that solves the normal equations has the least squared error; for
    every other coefficient vector [b'] the predictions [X @ b] are at
    least as close to [y] as [X @ b']. *)
Theorem normal_equations_minimise (X : list (list Q)) (y b b' : list Q) :
  X <> [] ->
  (forall row, In row X -> length row = length b) ->
  length y = length X ->
  length b' = length b ->
  (exists A c, matmul (transpose X) X = Some A /\
               matvec (transpose X) y = Some c /\
               solves A c b) ->
  exists p p',
    matvec X b = Some p /\ matvec X b' = Some p' /\
    squared_error p y <= squared_error p' y.
Proof.
  intros Hne Hs Hy Hb' [A [c [HA [Hc [g [Hg Hgc]]]]]].
  set (m := length b) in *.
  destruct (matmul_gram X m Hne Hs) as [Ht HA'].
  rewrite HA' in HA. injection HA as <-.
  rewrite Ht in Hc.
  rewrite matvec_total in Hc.
  2:{ intros row Hrow. apply in_map_iff in Hrow. destruct Hrow as [j [<- _]].
      unfold column. rewrite length_map. symmetry. exact Hy. }
  injection Hc as <-.
  rewrite matvec_total in Hg.
  2:{ intros row Hrow. apply in_map_iff in Hrow. destruct Hrow as [j [<- _]].
      rewrite length_map, length_seq. reflexivity. }
  injection Hg as <-.
  rewrite !map_map in Hgc.
  assert (Hnormal : forall j, In j (seq 0 m) ->
             tdot (column j X) (map (fun row => tdot row b) X)
             == tdot (column j X) y).
  { intros j Hj.
    assert (Hall : forall l : list nat,
               Forall2 Qeq
                 (map (fun x => tdot (map (fun k => tdot (column x X) (column k X))
                                          (seq 0 m)) b) l)
                 (map (fun x => tdot (column x X) y) l) ->
               forall i, In i l ->
                 tdot (map (fun k => tdot (column i X) (column k X)) (seq 0 m)) b
                 == tdot (column i X) y).
    { induction l as [|a l IHl]; intros HF i Hi; [destruct Hi|].
      cbn [map] in HF. inversion HF; subst.
      destruct Hi as [<-|Hi]; [assumption | apply IHl; assumption]. }
    rewrite <- (Hall _ Hgc j Hj).
    rewrite (tdot_adjoint m b X Hs (column j X))
      by (unfold column; apply length_map).
    rewrite (tdot_comm (map (fun k => tdot (column j X) (column k X))
                            (seq 0 m)) b).
    apply tdot_map_ext. intros k _. apply tdot_comm. }
  assert (Hortho : forall v,
             tdot (map (fun row => tdot row b) X) (map (fun row => tdot row v) X)
             == tdot y (map (fun row => tdot row v) X)).
  { intro v.
    rewrite (tdot_adjoint m v X Hs) by (rewrite length_map; reflexivity).
    rewrite (tdot_adjoint m v X Hs y Hy).
    apply tdot_map_ext. intros j Hj. apply Hnormal. exact Hj. }
  exists (map (fun row => tdot row b) X), (map (fun row => tdot row b') X).
  split; [apply matvec_total; exact Hs|].
  split; [apply matvec_total; intros row Hrow; rewrite Hb'; apply Hs, Hrow|].
  set (p := map (fun row => tdot row b) X) in *.
  set (p' := map (fun row => tdot row b') X) in *.
  rewrite (squared_error_expand p' p y)
    by (unfold p, p'; rewrite !length_map; congruence).
  pose proof (squared_error_nonneg p' p) as Hnn.
  pose proof (Hortho b') as H1. pose proof (Hortho b) as H2.
  fold p' in H1. fold p in H2.
  rewrite (tdot_comm p' p), (tdot_comm p' y), (tdot_comm p y).
  set (e := squared_error p' p) in *.
  set (s := squared_error p y).
  set (t1 := tdot p p') in *. set (t2 := tdot y p') in *.
  set (t3 := tdot p p) in *. set (t4 := tdot y p) in *.
  lra.
Qed.

End LeastSquares.

(** ** Raising the cap, and restarting *)

Section Caps.

Context {num : Type} `{Num num} {W : Type}.

Variable d : num -> num.
Variable alpha : num.
Variable tol : num.
Variable verbose : bool.
Variable callback : option (num -> W -> W).

Lemma for_loop_after_break (n extra : nat) :
  forall it h (w : W) t,
    breaks d alpha tol n h = true ->
    for_loop (returning d) alpha tol verbose callback (n + extra) it h w t =
    for_loop (returning d) alpha tol verbose callback n it h w t.
Proof.
  induction n as [|n IH]; intros it h w t Hb; [discriminate|].
  cbn [breaks] in Hb. cbn [Nat.add for_loop returning].
  fold (update d alpha h). fold (converged d alpha tol h).
  destruct (converged d alpha tol h); [reflexivity|].
  apply IH. exact Hb.
Qed.

Lemma candidate_add (a b : nat) (h : num) :
  candidate d alpha (a + b) h = candidate d alpha b (candidate d alpha a h).
Proof.
  unfold candidate. rewrite Nat.add_comm. apply Nat.iter_add.
Qed.

Lemma updates_after_cap (n m : nat) :
  forall h,
    breaks d alpha tol n h = false ->
    updates d alpha tol (n + m) h =
    n + updates d alpha tol m (candidate d alpha n h).
Proof.
  induction n as [|n IH]; intros h Hb; [reflexivity|].
  cbn [breaks] in Hb. cbn [Nat.add updates].
  destruct (converged d alpha tol h); [discriminate|].
  rewrite IH by exact Hb. rewrite candidate_S. reflexivity.
Qed.

(** X3.  Once a run has left through [break], a larger cap changes nothing: the
    run with the larger cap returns the same value, leaves the caller's
    world in the same state and has the same trace. *)
Theorem larger_cap_changes_nothing (h_0 : num) (max_iter more : Z) (w_0 : W) :
  (0 <= more)%Z ->
  breaks d alpha tol (Z.to_nat max_iter) h_0 = true ->
  gradient_descent (returning d) alpha tol verbose callback
                   h_0 (max_iter + more) w_0 =
  gradient_descent (returning d) alpha tol verbose callback
                   h_0 max_iter w_0.
Proof.
  intros Hmore Hb. unfold gradient_descent.
  assert (Hpos : (0 < max_iter)%Z).
  { destruct (Z.to_nat max_iter) eqn:E; [discriminate | lia]. }
  replace (Z.to_nat (max_iter + more))
    with (Z.to_nat max_iter + Z.to_nat more)%nat by lia.
  apply for_loop_after_break. exact Hb.
Qed.

(** X4.  A run that used up its cap can be resumed: running [m2] more
    iterations from the value it returned gives the value a single run of
    [m1 + m2] iterations from [h_0] returns. *)
Theorem gradient_descent_resumes
        (h_0 r : num) (m1 m2 : Z) (w_0 w_1 : W) :
  (0 <= m1)%Z -> (0 <= m2)%Z ->
  breaks d alpha tol (Z.to_nat m1) h_0 = false ->
  result (gradient_descent (returning d) alpha tol verbose callback
                           h_0 m1 w_0) = Some r ->
  result (gradient_descent (returning d) alpha tol verbose callback
                           r m2 w_1) =
  result (gradient_descent (returning d) alpha tol verbose callback
                           h_0 (m1 + m2) w_0).
Proof.
  intros H1 H2 Hb Hr. unfold gradient_descent in *.
  rewrite for_loop_result in Hr. injection Hr as <-.
  assert (Hfull : updates d alpha tol (Z.to_nat m1) h_0 = Z.to_nat m1).
  { pose proof (updates_le d alpha tol (Z.to_nat m1) h_0) as Hle.
    destruct (Nat.eq_dec (updates d alpha tol (Z.to_nat m1) h_0)
                         (Z.to_nat m1)) as [E|Hne]; [exact E|].
    assert (Hlt : updates d alpha tol (Z.to_nat m1) h_0 < Z.to_nat m1)
      by lia.
    apply breaks_iff_short in Hlt. congruence. }
  rewrite Hfull, !for_loop_result.
  replace (Z.to_nat (m1 + m2)) with (Z.to_nat m1 + Z.to_nat m2)%nat by lia.
  rewrite updates_after_cap by exact Hb.
  rewrite candidate_add. reflexivity.
Qed.

End Caps.

(** ** The further properties at concrete inputs *)

Section FurtherScenarios.

Open Scope Q_scope.

(** Three salaries with mean 100000. *)
Definition three_salaries : list Q := [90000; 110000; 100000].

(** A derivative that is only defined to the left of 1 (and is [-1]
    there), as [lambda h: -1 if h < 1 else 1/0] would be. *)
Definition derivative_left_of_one (h : Q) : option Q :=
  if Qle_bool 1 h then None else Some (-1).

Lemma derivative_exception_propagates_witness :
  let r := gradient_descent derivative_left_of_one (1 # 2) (1 # 1000) false
                            (Some append_position) 0 10 [] in
  let d := fun _ : Q => -1 in
  result r = None /\
  evaluated (trace r) = map (fun j => candidate d (1 # 2) j 0) (seq 0 3) /\
  world r =
    fold_left (notify (Some append_position))
              (map (fun j => candidate d (1 # 2) j 0) (seq 1 2)) [].
Proof.
  cbv zeta.
  refine (derivative_exception_propagates
            derivative_left_of_one (fun _ => -1) (1 # 2) (1 # 1000) false
            (Some append_position) 0 10 [] 2 _ _ _ _).
  - lia.
  - intros j Hj. destruct j as [|[|j]]; [reflexivity | reflexivity | lia].
  - intros j Hj. destruct j as [|[|j]]; [reflexivity | reflexivity | lia].
  - reflexivity.
Defined.

Lemma gradient_descent_fixed_after_break_witness :
  result (gradient_descent (returning (quadratic_derivative 1)) (1 # 4)
                           (1 # 5) true (Some append_position)
                           (candidate (quadratic_derivative 1) (1 # 4) 2 0)
                           default_max_iter [])
  = Some (candidate (quadratic_derivative 1) (1 # 4) 2 0).
Proof.
  refine (gradient_descent_fixed_after_break
            (quadratic_derivative 1) (1 # 4) (1 # 5) false
            (@None (Q -> list Q -> list Q)) 0 10 [] true
            (Some append_position) default_max_iter []
            (candidate (quadratic_derivative 1) (1 # 4) 2 0) _ _);
    vm_compute; reflexivity.
Defined.

Lemma mean_minimises_mean_squared_error_witness :
  mean_squared_error three_salaries 60000 ==
    mean_squared_error three_salaries (mean three_salaries)
    + (60000 - mean three_salaries) ^ 2 /\
  mean_squared_error three_salaries (mean three_salaries)
  <= mean_squared_error three_salaries 60000.
Proof.
  apply (mean_minimises_mean_squared_error three_salaries 60000).
  discriminate.
Defined.

Lemma derivative_of_mean_squared_error_correct_witness :
  mean_squared_error three_salaries (60000 + 1)
  - mean_squared_error three_salaries 60000 ==
  1 * derivative_of_mean_squared_error three_salaries 60000 + 1 ^ 2.
Proof.
  apply (derivative_of_mean_squared_error_correct three_salaries 60000 1).
  discriminate.
Defined.

(** The notebook's run, [alpha=.1, tol=.001] from 60000, on three
    salaries, with a cap of 100 iterations. *)
Lemma gradient_descent_finds_the_mean_witness :
  let d := derivative_of_mean_squared_error three_salaries in
  let run := gradient_descent (returning d) (1 # 10) (1 # 1000) true
                              (Some append_position) 60000 100 [] in
  breaks d (1 # 10) (1 # 1000) (Z.to_nat 100) 60000 = true /\
  exists r,
    result run = Some r /\
    Qabs (r - mean three_salaries) < (1 # 1000) / (2 * (1 # 10)) /\
    Qabs (r - mean three_salaries) <= Qabs (60000 - mean three_salaries).
Proof.
  cbv zeta.
  refine (gradient_descent_finds_the_mean
            three_salaries 60000 (1 # 10) (1 # 1000) true
            (Some append_position) 100 [] _ _ _ _ _).
  - discriminate.
  - reflexivity.
  - discriminate.
  - lia.
  - vm_compute. reflexivity.
Defined.

Lemma update_scales_excess_error_witness :
  let d := derivative_of_mean_squared_error three_salaries in
  mean_squared_error three_salaries (update d (1 # 10) 60000)
  <= mean_squared_error three_salaries 60000 /\
  mean_squared_error three_salaries 60000
  <= mean_squared_error three_salaries (update d (11 # 10) 60000).
Proof.
  cbv zeta. split.
  - refine (proj1 (proj2 (update_scales_excess_error
                            three_salaries (1 # 10) 60000 _)) _ _);
      discriminate.
  - refine (proj2 (proj2 (update_scales_excess_error
                            three_salaries (11 # 10) 60000 _)) _);
      discriminate.
Defined.

Lemma our_function_valley_witness :
  our_function 2 <= our_function 1 /\ our_function 3 <= our_function 4.
Proof.
  split.
  - refine (proj1 (our_function_valley 1 2 _) _ _); discriminate.
  - refine (proj2 (our_function_valley 3 4 _) _); discriminate.
Defined.

Lemma design_matrix_predicts_witness :
  exists v p,
    matvec (design_matrix [0; 1; 2]) [1; 2; 3; 4; 5] = Some v /\
    y_pred [1; 2; 3; 4; 5] [0; 1; 2] = Some p /\
    Forall2 Qeq v p.
Proof.
  apply (design_matrix_predicts [1; 2; 3; 4; 5] [0; 1; 2]). reflexivity.
Defined.

Lemma predictions_evaluate_polynomial_witness :
  (exists v,
     predictions true (repeat 1 22) [0; 1; 2] = Some v /\
     Forall2 Qeq v (map (horner (repeat 1 22)) [0; 1; 2])) /\
  predictions false (repeat 1 22) [0; 1; 2] = None.
Proof.
  apply (predictions_evaluate_polynomial (repeat 1 22) [0; 1; 2]).
  reflexivity.
Defined.

(** Two sevens and two threes, one of each on the wrong side of the rule
    with weights [0, 1]. *)
Lemma misclassified_are_wrong_predictions_witness :
  misclassified (X_test [[1]; [0]] [[0]; [1]]) [0; 1]
                (y_test [[1]; [0]] [[0]; [1]])
  = Some (filter (predicted [0; 1] 3) (with_ones [[1]; [0]])
          ++ filter (predicted [0; 1] 7) (with_ones [[0]; [1]])).
Proof.
  apply (misclassified_are_wrong_predictions [[1]; [0]] [[0]; [1]] [0; 1]).
  intros x Hx.
  repeat (destruct Hx as [<-|Hx]; [reflexivity|]). destruct Hx.
Defined.

(** The run on the bowl around 1 breaks on its third iteration; a cap of
    10 or of 10000 gives the same run. *)
Lemma larger_cap_changes_nothing_witness :
  gradient_descent (returning (quadratic_derivative 1)) (1 # 4) (1 # 5)
                   true (Some append_position) 0 (10 + 9990) [] =
  gradient_descent (returning (quadratic_derivative 1)) (1 # 4) (1 # 5)
                   true (Some append_position) 0 10 [].
Proof.
  apply (larger_cap_changes_nothing
           (quadratic_derivative 1) (1 # 4) (1 # 5) true
           (Some append_position) 0 10 9990 []);
    [lia | vm_compute; reflexivity].
Defined.

(** The large-step run of six iterations, as four iterations followed by
    two more from where they ended. *)
Lemma gradient_descent_resumes_witness :
  let d := quadratic_derivative 100000 in
  result (gradient_descent (returning d) (11 # 10) default_tol false
                           (Some append_position)
                           (candidate d (11 # 10) 4 60000) 2 [])
  = result (gradient_descent (returning d) (11 # 10) default_tol false
                             (Some append_position) 60000 (4 + 2) []).
Proof.
  cbv zeta.
  refine (gradient_descent_resumes
            (quadratic_derivative 100000) (11 # 10) default_tol false
            (Some append_position) 60000
            (candidate (quadratic_derivative 100000) (11 # 10) 4 60000)
            4 2 [] [] _ _ _ _);
    [lia | lia | vm_compute; reflexivity | vm_compute; reflexivity].
Defined.

(** Three points fitted by a line: [b = (5/6, 3/2)] solves the normal
    equations. *)
Lemma normal_equations_minimise_witness :
  exists p p',
    matvec [[1; 0]; [1; 1]; [1; 2]] [5 # 6; 3 # 2] = Some p /\
    matvec [[1; 0]; [1; 1]; [1; 2]] [0; 0] = Some p' /\
    squared_error p [1; 2; 4] <= squared_error p' [1; 2; 4].
Proof.
  refine (normal_equations_minimise
            [[1; 0]; [1; 1]; [1; 2]] [1; 2; 4] [5 # 6; 3 # 2] [0; 0]
            _ _ _ _ _).
  - discriminate.
  - intros row Hrow.
    repeat (destruct Hrow as [<-|Hrow]; [reflexivity|]). destruct Hrow.
  - reflexivity.
  - reflexivity.
  - eexists. eexists. split; [vm_compute; reflexivity|].
    split; [vm_compute; reflexivity|].
    eexists. split; [vm_compute; reflexivity|].
    repeat constructor.
Defined.

End FurtherScenarios.

(** ** The mean UCSD loss, on the real numbers *)

(** ** The routine on binary64 floats *)

From Stdlib Require Floats.

(** Python's [float] and numpy's [float64]: IEEE 754 binary64 with
    round-to-nearest-even, where [<] is false on NaN. *)
#[export] Instance Float_Num : Num PrimFloat.float := {
  sub := PrimFloat.sub;
  mul := PrimFloat.mul;
  abs := PrimFloat.abs;
  ltb := PrimFloat.ltb
}.

Section Binary64.

Import PrimFloat.
#[local] Open Scope float_scope.

(** [2 * (h - c)], the derivative of the bowl around [c], on floats. *)
Definition quadratic_derivative_float (c h : PrimFloat.float)
  : PrimFloat.float :=
  PrimFloat.mul 0x1p+1 (PrimFloat.sub h c).

(** 100000.00499999999, 0.1 and 0.001 as Python reads them. *)
Definition r_float : PrimFloat.float := 0x1.86a00147ae147p+16.
Definition alpha_float : PrimFloat.float := 0x1.999999999999ap-4.
Definition tol_float : PrimFloat.float := 0x1.0624dd2f1a9fcp-10.

(** C9 fails as stated on floats.  On the bowl around 100000, at
    [r = 100000.00499999999] with [alpha = 0.1] and [tol = 0.001], the
    product [alpha * derivative(r)] is 0.00099999999802..., under the
    tolerance; but the step the routine tests, [(r - alpha * derivative(r))
    - r], rounds to 0.00100000000384..., which is not.  The routine adopts
    100000.00399999999 and returns it, not [r]. *)
Lemma terminal_state_not_idempotent_on_floats :
  let d := quadratic_derivative_float 0x1.86ap+16 in
  let run := gradient_descent (returning d) alpha_float tol_float false
                              (@None (PrimFloat.float -> unit -> unit))
                              r_float default_max_iter tt in
  PrimFloat.ltb (PrimFloat.abs (PrimFloat.mul alpha_float (d r_float)))
                tol_float = true /\
  result run = Some 0x1.86a0010624dd2p+16 /\
  PrimFloat.ltb 0x1.86a0010624dd2p+16 r_float = true /\
  evaluated (trace run) = [r_float; 0x1.86a0010624dd2p+16].
Proof.
  cbv zeta. repeat split; vm_compute; reflexivity.
Qed.

(** The bound [tol / (2 alpha)] on the distance from [c] of a run that
    stops through its check needs exact arithmetic.  On floats the bowl
    around 100000, from 60000 with [alpha = 0.1] and [tol = 1e-12], stops
    after 155 updates at 99999.99999999997: the computed step is 0 there,
    while the distance from [c], 2.9e-11, is above
    [tol / (2 alpha) = 5e-12]. *)
Lemma bowl_bound_needs_exact_arithmetic :
  let c := 0x1.86ap+16 in
  let tol := 0x1.19799812dea11p-40 in
  let run := gradient_descent (returning (quadratic_derivative_float c))
                              alpha_float tol false
                              (@None (PrimFloat.float -> unit -> unit))
                              0x1.d4cp+15 default_max_iter tt in
  result run = Some 0x1.869fffffffffep+16 /\
  length (evaluated (trace run)) = 156%nat /\
  PrimFloat.ltb (PrimFloat.abs (PrimFloat.sub 0x1.869fffffffffep+16 c))
                (PrimFloat.div tol (PrimFloat.mul 0x1p+1 alpha_float))
  = false.
Proof.
  cbv zeta. repeat split; vm_compute; reflexivity.
Qed.

End Binary64.

From Stdlib Require Import Reals Lra.

Section UCSDRisk.

Open Scope R_scope.

Context {W : Type}.

(** The routine on real numbers. *)
#[export] Instance R_Num : Num R := {
  sub := Rminus;
  mul := Rmult;
  abs := Rabs;
  ltb := fun x y => if Rlt_dec x y then true else false
}.

(** [np.mean] of a vector of reals. *)
Definition Rmean (ys : list R) : R :=
  fold_right Rplus 0 ys / INR (length ys).

(** [make_ucsd_risk(sigma)]:
    [(1 - np.exp(-(h - SALARIES)**2 / sigma**2)).mean()] *)
Definition make_ucsd_risk (sigma : R) (SALARIES : list R) (h : R) : R :=
  Rmean (map (fun y => 1 - exp (- (h - y) ^ 2 / sigma ^ 2)) SALARIES).

(** [make_derivative_of_ucsd_risk(sigma)]:
    [((h - SALARIES) * np.exp(-(h - SALARIES)**2 / sigma**2)).mean()
     * (2/sigma**2)] *)
Definition make_derivative_of_ucsd_risk (sigma : R) (SALARIES : list R)
           (h : R) : R :=
  Rmean (map (fun y => (h - y) * exp (- (h - y) ^ 2 / sigma ^ 2)) SALARIES)
  * (2 / sigma ^ 2).

Lemma total_bounds (f : R -> R) (lo hi : R) (ys : list R) :
  (forall y, In y ys -> lo <= f y < hi) ->
  ys <> [] ->
  INR (length ys) * lo <= fold_right Rplus 0 (map f ys) < INR (length ys) * hi.
Proof.
  intros Hf Hne. induction ys as [|y ys IH]; [contradiction|].
  cbn [map fold_right]. change (length (y :: ys)) with (S (length ys)).
  rewrite S_INR.
  assert (Hy : lo <= f y < hi) by (apply Hf; left; reflexivity).
  destruct ys as [|y' ys].
  - cbn. lra.
  - assert (Hrest : INR (length (y' :: ys)) * lo
                    <= fold_right Rplus 0 (map f (y' :: ys))
                    < INR (length (y' :: ys)) * hi).
    { apply IH; [|discriminate]. intros z Hz. apply Hf. right. exact Hz. }
    lra.
Qed.

Lemma Rmean_bounds (f : R -> R) (lo hi : R) (ys : list R) :
  (forall y, In y ys -> lo <= f y < hi) ->
  ys <> [] ->
  lo <= Rmean (map f ys) < hi.
Proof.
  intros Hf Hne. unfold Rmean. rewrite length_map.
  pose proof (total_bounds f lo hi ys Hf Hne) as [Hlo Hhi].
  assert (Hn : 0 < INR (length ys)).
  { apply lt_0_INR. destruct ys; [contradiction | cbn; lia]. }
  split.
  - apply Rmult_le_reg_r with (INR (length ys)); [exact Hn|].
    unfold Rdiv. rewrite Rmult_assoc, Rinv_l by lra. lra.
  - apply Rmult_lt_reg_r with (INR (length ys)); [exact Hn|].
    unfold Rdiv. rewrite Rmult_assoc, Rinv_l by lra. lra.
Qed.

Lemma exp_neg_square (sigma t : R) :
  sigma <> 0 -> 0 < exp (- t ^ 2 / sigma ^ 2) <= 1.
Proof.
  intro Hs. split; [apply exp_pos|].
  assert (Hq : 0 <= t ^ 2 / sigma ^ 2).
  { apply Rmult_le_pos; [apply pow2_ge_0|].
    apply Rlt_le, Rinv_0_lt_compat. apply Rlt_0_sqr in Hs.
    unfold Rsqr in Hs. simpl. lra. }
  assert (E : - t ^ 2 / sigma ^ 2 = - (t ^ 2 / sigma ^ 2)) by (field; exact Hs).
  rewrite E. rewrite <- exp_0.
  destruct (Rle_lt_or_eq_dec _ _ Hq) as [Hlt|Heq].
  - apply Rlt_le, exp_increasing. lra.
  - rewrite <- Heq, Ropp_0. lra.
Qed.

(** X10.  The risk is a mean of losses in [0, 1): it lies in [0, 1) itself. *)
Theorem ucsd_risk_between_0_and_1 (sigma : R) (SALARIES : list R) (h : R) :
  SALARIES <> [] -> sigma <> 0 ->
  0 <= make_ucsd_risk sigma SALARIES h < 1.
Proof.
  intros Hne Hs. unfold make_ucsd_risk.
  apply Rmean_bounds; [|exact Hne].
  intros y _. pose proof (exp_neg_square sigma (h - y) Hs). lra.
Qed.


Lemma total_positive (f : R -> R) (ys : list R) :
  (forall y, In y ys -> 0 < f y) -> ys <> [] ->
  0 < fold_right Rplus 0 (map f ys).
Proof.
  intros Hf Hne. induction ys as [|y ys IH]; [contradiction|].
  cbn [map fold_right].
  assert (Hy : 0 < f y) by (apply Hf; left; reflexivity).
  destruct ys as [|y' ys]; [cbn; lra|].
  assert (Hrest : 0 < fold_right Rplus 0 (map f (y' :: ys))).
  { apply IH; [|discriminate]. intros z Hz. apply Hf. right. exact Hz. }
  lra.
Qed.

Lemma total_opp (f : R -> R) (ys : list R) :
  fold_right Rplus 0 (map (fun y => - f y) ys)
  = - fold_right Rplus 0 (map f ys).
Proof.
  induction ys as [|y ys IH]; cbn [map fold_right]; [lra|]. rewrite IH. lra.
Qed.

(** X12.  In real arithmetic (no rounding, no underflow of [exp]), for
    non-empty data and [sigma <> 0]: to the right of all the data the
    derivative is positive, to their left it is negative, so every
    stationary point of the risk lies within the range of the data. *)
Theorem ucsd_derivative_sign (sigma : R) (SALARIES : list R) (h : R) :
  SALARIES <> [] -> sigma <> 0 ->
  ((forall y, In y SALARIES -> y < h) ->
   0 < make_derivative_of_ucsd_risk sigma SALARIES h) /\
  ((forall y, In y SALARIES -> h < y) ->
   make_derivative_of_ucsd_risk sigma SALARIES h < 0).
Proof.
  intros Hne Hs.
  assert (Hn : 0 < / INR (length SALARIES)).
  { apply Rinv_0_lt_compat, lt_0_INR.
    destruct SALARIES; [contradiction | cbn; lia]. }
  assert (H2 : 0 < 2 / sigma ^ 2).
  { apply Rmult_lt_0_compat; [lra|]. apply Rinv_0_lt_compat.
    apply Rlt_0_sqr in Hs. unfold Rsqr in Hs. simpl. lra. }
  unfold make_derivative_of_ucsd_risk, Rmean. rewrite length_map.
  unfold Rdiv at 1 3.
  set (f := fun y => (h - y) * exp (- (h - y) ^ 2 / sigma ^ 2)).
  split; intro Hside.
  - assert (Hsum : 0 < fold_right Rplus 0 (map f SALARIES)).
    { apply total_positive; [|exact Hne]. intros y Hy. unfold f.
      apply Rmult_lt_0_compat; [|apply exp_pos].
      specialize (Hside y Hy). lra. }
    apply Rmult_lt_0_compat; [|exact H2].
    apply Rmult_lt_0_compat; assumption.
  - assert (Hsum : 0 < fold_right Rplus 0 (map (fun y => - f y) SALARIES)).
    { apply total_positive; [|exact Hne]. intros y Hy. unfold f.
      rewrite Ropp_mult_distr_l.
      apply Rmult_lt_0_compat; [|apply exp_pos].
      specialize (Hside y Hy). lra. }
    rewrite total_opp in Hsum.
    set (t := fold_right Rplus 0 (map f SALARIES)) in *.
    assert (Ht : 0 < (- t) * / INR (length SALARIES) * (2 / sigma ^ 2)).
    { apply Rmult_lt_0_compat; [|exact H2].
      apply Rmult_lt_0_compat; assumption. }
    lra.
Qed.

(** Functions equal everywhere have the same derivative. *)
Lemma derivable_pt_lim_ext (f g : R -> R) (x l : R) :
  (forall t, f t = g t) -> derivable_pt_lim f x l -> derivable_pt_lim g x l.
Proof.
  intros E Hf eps Heps. destruct (Hf eps Heps) as [delta Hd].
  exists delta. intros t Ht Hlt. rewrite <- !E. apply Hd; assumption.
Qed.

(** One term of the risk and its derivative. *)
Lemma ucsd_loss_derivative (sigma y x : R) :
  sigma <> 0 ->
  derivable_pt_lim (fun h => 1 - exp (- (h - y) ^ 2 / sigma ^ 2)) x
                   ((x - y) * exp (- (x - y) ^ 2 / sigma ^ 2) * (2 / sigma ^ 2)).
Proof.
  intro Hs.
  set (u := fun h : R => (- / sigma ^ 2) * ((h - y) * (h - y))).
  assert (Hu : derivable_pt_lim u x ((- / sigma ^ 2) * (2 * (x - y)))).
  { unfold u.
    apply (derivable_pt_lim_scal (fun h => (h - y) * (h - y))).
    replace (2 * (x - y)) with (1 * (x - y) + (x - y) * 1) by ring.
    apply (derivable_pt_lim_mult (fun h => h - y) (fun h => h - y)).
    - replace 1 with (1 - 0) by ring.
      apply (derivable_pt_lim_minus id (fct_cte y));
        [apply derivable_pt_lim_id | apply derivable_pt_lim_const].
    - replace 1 with (1 - 0) by ring.
      apply (derivable_pt_lim_minus id (fct_cte y));
        [apply derivable_pt_lim_id | apply derivable_pt_lim_const]. }
  pose proof (derivable_pt_lim_comp u exp x _ _ Hu (derivable_pt_lim_exp (u x)))
    as He.
  pose proof (derivable_pt_lim_minus (fct_cte 1) (comp exp u) x _ _
                (derivable_pt_lim_const 1 x) He) as Hm.
  apply (derivable_pt_lim_ext (fct_cte 1 - comp exp u)%F).
  - intro t. unfold minus_fct, fct_cte, comp, u. f_equal. f_equal.
    field. exact Hs.
  - replace ((x - y) * exp (- (x - y) ^ 2 / sigma ^ 2) * (2 / sigma ^ 2))
      with (0 - exp (u x) * (- / sigma ^ 2 * (2 * (x - y)))); [exact Hm|].
    replace (u x) with (- (x - y) ^ 2 / sigma ^ 2)
      by (unfold u; field; exact Hs).
    field. exact Hs.
Qed.

Lemma total_derivative (F F' : R -> R -> R) (ys : list R) (x : R) :
  (forall y, derivable_pt_lim (F y) x (F' y x)) ->
  derivable_pt_lim (fun h => fold_right Rplus 0 (map (fun y => F y h) ys)) x
                   (fold_right Rplus 0 (map (fun y => F' y x) ys)).
Proof.
  intro HF. induction ys as [|y ys IH]; cbn [map fold_right].
  - apply (derivable_pt_lim_const 0).
  - apply (derivable_pt_lim_plus (F y) _ x _ _ (HF y) IH).
Qed.

(** X11.  [make_derivative_of_ucsd_risk(sigma)] is the derivative of
    [make_ucsd_risk(sigma)] at every point. *)
Theorem derivative_of_ucsd_risk_correct (sigma : R) (SALARIES : list R)
        (h : R) :
  SALARIES <> [] -> sigma <> 0 ->
  derivable_pt_lim (make_ucsd_risk sigma SALARIES) h
                   (make_derivative_of_ucsd_risk sigma SALARIES h).
Proof.
  intros _ Hs.
  set (F := fun y t : R => 1 - exp (- (t - y) ^ 2 / sigma ^ 2)).
  set (F' := fun y t : R =>
               (t - y) * exp (- (t - y) ^ 2 / sigma ^ 2) * (2 / sigma ^ 2)).
  pose proof (total_derivative F F' SALARIES h
                (fun y => ucsd_loss_derivative sigma y h Hs)) as Hsum.
  pose proof (derivable_pt_lim_scal _ (/ INR (length SALARIES)) h _ Hsum)
    as Hmean.
  apply (derivable_pt_lim_ext _ (make_ucsd_risk sigma SALARIES)) in Hmean.
  - replace (make_derivative_of_ucsd_risk sigma SALARIES h)
      with (/ INR (length SALARIES)
            * fold_right Rplus 0 (map (fun y => F' y h) SALARIES));
      [exact Hmean|].
    unfold make_derivative_of_ucsd_risk, Rmean. rewrite length_map.
    unfold F'.
    assert (E : forall ys : list R,
               fold_right Rplus 0
                 (map (fun y => (h - y) * exp (- (h - y) ^ 2 / sigma ^ 2)
                                * (2 / sigma ^ 2)) ys)
               = fold_right Rplus 0
                   (map (fun y => (h - y) * exp (- (h - y) ^ 2 / sigma ^ 2)) ys)
                 * (2 / sigma ^ 2)).
    { induction ys as [|y ys IH]; cbn [map fold_right]; [ring|].
      rewrite IH. ring. }
    rewrite E. unfold Rdiv. ring.
  - intro t. unfold mult_real_fct, make_ucsd_risk, Rmean, F.
    rewrite length_map. unfold Rdiv. ring.
Qed.


(** One term of the derivative is at most [|sigma| / 2] in size. *)
Lemma ucsd_term_small (sigma t : R) :
  sigma <> 0 ->
  Rabs (t * exp (- t ^ 2 / sigma ^ 2)) <= Rabs sigma / 2.
Proof.
  intro Hs.
  set (a := t ^ 2 / sigma ^ 2).
  assert (Ea : - t ^ 2 / sigma ^ 2 = - a) by (unfold a; field; exact Hs).
  rewrite Ea, Rabs_mult, (Rabs_pos_eq (exp (- a))) by apply Rlt_le, exp_pos.
  set (E := exp (- a)). set (tm := Rabs t). set (sg := Rabs sigma).
  assert (Hsg : 0 < sg) by (apply Rabs_pos_lt; exact Hs).
  assert (HT : 0 <= tm) by apply Rabs_pos.
  assert (HE : 0 < E) by apply exp_pos.
  assert (HS2 : sg * sg = sigma ^ 2).
  { unfold sg. rewrite <- Rabs_mult. rewrite Rabs_pos_eq; [ring|].
    replace (sigma * sigma) with (sigma ^ 2) by ring. apply pow2_ge_0. }
  assert (HT2 : tm * tm = t ^ 2).
  { unfold tm. rewrite <- Rabs_mult. rewrite Rabs_pos_eq; [ring|].
    replace (t * t) with (t ^ 2) by ring. apply pow2_ge_0. }
  assert (Ha : a * (sg * sg) = tm * tm).
  { rewrite HS2, HT2. unfold a. field. exact Hs. }
  assert (HaE : E * (1 + a) <= 1).
  { assert (Hexp : E * exp a = 1).
    { unfold E. rewrite exp_Ropp. apply Rinv_l.
      pose proof (exp_pos a). lra. }
    pose proof (exp_ineq1_le a) as Hle.
    rewrite <- Hexp. apply Rmult_le_compat_l; lra. }
  assert (H1 : 2 * tm * sg <= sg * sg + tm * tm).
  { pose proof (pow2_ge_0 (sg - tm)) as Hsq.
    replace ((sg - tm) ^ 2) with (sg * sg + tm * tm - 2 * tm * sg) in Hsq by ring.
    lra. }
  assert (H3 : (2 * tm * sg) * E <= (sg * sg + tm * tm) * E).
  { apply Rmult_le_compat_r; lra. }
  assert (H4 : (sg * sg + tm * tm) * E <= sg * sg).
  { rewrite <- Ha.
    replace ((sg * sg + a * (sg * sg)) * E) with ((sg * sg) * (E * (1 + a))) by ring.
    rewrite <- (Rmult_1_r (sg * sg)) at 2.
    apply Rmult_le_compat_l; [|exact HaE]. nra. }
  assert (H5 : (tm * E) * (2 * sg) <= sg * sg) by lra.
  apply Rmult_le_reg_r with (2 * sg); [lra|].
  replace (sg / 2 * (2 * sg)) with (sg * sg) by field. exact H5.
Qed.

Lemma total_small (f : R -> R) (bound : R) (ys : list R) :
  (forall y, In y ys -> Rabs (f y) <= bound) ->
  Rabs (fold_right Rplus 0 (map f ys)) <= INR (length ys) * bound.
Proof.
  intro Hf. induction ys as [|y ys IH].
  - cbn. rewrite Rabs_R0. lra.
  - cbn [map fold_right]. change (length (y :: ys)) with (S (length ys)).
    rewrite S_INR.
    apply Rle_trans with (1 := Rabs_triang _ _).
    assert (Hy : Rabs (f y) <= bound) by (apply Hf; left; reflexivity).
    assert (Hrest : Rabs (fold_right Rplus 0 (map f ys))
                    <= INR (length ys) * bound).
    { apply IH. intros z Hz. apply Hf. right. exact Hz. }
    lra.
Qed.

Lemma ucsd_derivative_bound (sigma : R) (SALARIES : list R) (h : R) :
  SALARIES <> [] -> sigma <> 0 ->
  Rabs (make_derivative_of_ucsd_risk sigma SALARIES h) <= 1 / Rabs sigma.
Proof.
  intros Hne Hs.
  assert (Hsg : 0 < Rabs sigma) by (apply Rabs_pos_lt; exact Hs).
  assert (HS2 : Rabs sigma * Rabs sigma = sigma ^ 2).
  { rewrite <- Rabs_mult. rewrite Rabs_pos_eq; [ring|].
    replace (sigma * sigma) with (sigma ^ 2) by ring. apply pow2_ge_0. }
  assert (Hn : 0 < INR (length SALARIES)).
  { apply lt_0_INR. destruct SALARIES; [contradiction | cbn; lia]. }
  unfold make_derivative_of_ucsd_risk, Rmean. rewrite length_map.
  pose proof (total_small
                (fun y => (h - y) * exp (- (h - y) ^ 2 / sigma ^ 2))
                (Rabs sigma / 2) SALARIES
                (fun y _ => ucsd_term_small sigma (h - y) Hs)) as Hsum.
  set (total := fold_right Rplus 0
                  (map (fun y => (h - y) * exp (- (h - y) ^ 2 / sigma ^ 2))
                       SALARIES)) in *.
  rewrite <- HS2. set (sg := Rabs sigma) in *. set (n := INR (length SALARIES)) in *.
  rewrite Rabs_mult. unfold Rdiv at 1. rewrite Rabs_mult.
  rewrite (Rabs_pos_eq (/ n)) by (apply Rlt_le, Rinv_0_lt_compat; exact Hn).
  rewrite (Rabs_pos_eq (2 / (sg * sg))).
  2:{ apply Rlt_le, Rmult_lt_0_compat; [lra|].
      apply Rinv_0_lt_compat. nra. }
  apply Rle_trans with (n * (sg / 2) * / n * (2 / (sg * sg))).
  - apply Rmult_le_compat_r.
    + apply Rlt_le, Rmult_lt_0_compat; [lra|]. apply Rinv_0_lt_compat. nra.
    + apply Rmult_le_compat_r; [|exact Hsum].
      apply Rlt_le, Rinv_0_lt_compat; exact Hn.
  - apply Req_le. field. split; lra.
Qed.

(** X13.  The derivative of the risk is never larger than [1 / |sigma|]: with the
    notebook's scale parameters this is why a step size that suits the mean
    squared error leaves gradient descent almost still. *)
Theorem ucsd_derivative_small (sigma : R) (SALARIES : list R) (h : R) :
  SALARIES <> [] -> sigma <> 0 ->
  Rabs (make_derivative_of_ucsd_risk sigma SALARIES h) <= 1 / Rabs sigma.
Proof. apply ucsd_derivative_bound. Qed.

(** *** Gradient descent on the risk *)

Lemma ucsd_step_small (sigma : R) (SALARIES : list R) (alpha h : R) :
  SALARIES <> [] -> sigma <> 0 ->
  Rabs (update (make_derivative_of_ucsd_risk sigma SALARIES) alpha h - h)
  <= Rabs alpha / Rabs sigma.
Proof.
  intros Hne Hs. unfold update. cbn [sub mul R_Num].
  set (dh := make_derivative_of_ucsd_risk sigma SALARIES h).
  replace (h - alpha * dh - h) with (- (alpha * dh)) by ring.
  rewrite Rabs_Ropp, Rabs_mult. unfold Rdiv.
  apply Rmult_le_compat_l; [apply Rabs_pos|].
  pose proof (ucsd_derivative_bound sigma SALARIES h Hne Hs) as Hd.
  unfold Rdiv in Hd. rewrite Rmult_1_l in Hd. exact Hd.
Qed.

Lemma ucsd_candidate_near (sigma : R) (SALARIES : list R) (alpha h_0 : R)
      (k : nat) :
  SALARIES <> [] -> sigma <> 0 ->
  Rabs (candidate (make_derivative_of_ucsd_risk sigma SALARIES) alpha k h_0
        - h_0)
  <= INR k * (Rabs alpha / Rabs sigma).
Proof.
  intros Hne Hs. induction k as [|k IH].
  - change (candidate (make_derivative_of_ucsd_risk sigma SALARIES)
                      alpha 0 h_0) with h_0.
    replace (h_0 - h_0) with 0 by ring. rewrite Rabs_R0. cbn. lra.
  - change (candidate (make_derivative_of_ucsd_risk sigma SALARIES)
                      alpha (S k) h_0)
      with (update (make_derivative_of_ucsd_risk sigma SALARIES) alpha
              (candidate (make_derivative_of_ucsd_risk sigma SALARIES)
                         alpha k h_0)).
    set (c := candidate (make_derivative_of_ucsd_risk sigma SALARIES)
                        alpha k h_0) in *.
    pose proof (ucsd_step_small sigma SALARIES alpha c Hne Hs) as Hstep.
    set (u := update (make_derivative_of_ucsd_risk sigma SALARIES) alpha c)
      in *.
    replace (u - h_0) with ((u - c) + (c - h_0)) by ring.
    apply Rle_trans with (1 := Rabs_triang _ _).
    rewrite S_INR. lra.
Qed.

(** X14.  In real arithmetic, for non-empty data and [sigma <> 0]: whatever
    the starting point and the tolerance, a run of at most [max_iter]
    iterations on the risk returns a value within
    [max_iter * |alpha| / |sigma|] of the initial guess: with a step size
    that is small next to [sigma], gradient descent barely moves. *)
Theorem ucsd_gradient_descent_barely_moves
        (sigma : R) (SALARIES : list R) (alpha tol h_0 : R) verbose
        (callback : option (R -> W -> W)) (max_iter : Z) (w_0 : W) :
  SALARIES <> [] -> sigma <> 0 ->
  exists r,
    result (gradient_descent
              (returning (make_derivative_of_ucsd_risk sigma SALARIES))
              alpha tol verbose callback h_0 max_iter w_0) = Some r /\
    Rabs (r - h_0) <= INR (Z.to_nat max_iter) * (Rabs alpha / Rabs sigma).
Proof.
  intros Hne Hs. unfold gradient_descent. rewrite for_loop_result.
  eexists. split; [reflexivity|].
  set (d := make_derivative_of_ucsd_risk sigma SALARIES).
  set (n := Z.to_nat max_iter).
  pose proof (updates_le d alpha tol n h_0) as Hle.
  apply Rle_trans with (1 := ucsd_candidate_near sigma SALARIES alpha h_0
                               (updates d alpha tol n h_0) Hne Hs).
  apply Rmult_le_compat_r; [|apply le_INR; exact Hle].
  unfold Rdiv. apply Rmult_le_pos; [apply Rabs_pos|].
  apply Rlt_le, Rinv_0_lt_compat, Rabs_pos_lt. exact Hs.
Qed.

(** *** At concrete inputs *)

Lemma ucsd_risk_between_0_and_1_witness :
  0 <= make_ucsd_risk 2 [1; 3] 5 < 1.
Proof.
  apply (ucsd_risk_between_0_and_1 2 [1; 3] 5); [discriminate | lra].
Defined.

Lemma ucsd_derivative_sign_witness :
  0 < make_derivative_of_ucsd_risk 2 [1; 3] 5 /\
  make_derivative_of_ucsd_risk 2 [1; 3] 0 < 0.
Proof.
  split.
  - refine (proj1 (ucsd_derivative_sign 2 [1; 3] 5 _ _) _);
      [discriminate | lra |].
    intros y [<-|[<-|[]]]; lra.
  - refine (proj2 (ucsd_derivative_sign 2 [1; 3] 0 _ _) _);
      [discriminate | lra |].
    intros y [<-|[<-|[]]]; lra.
Defined.

Lemma derivative_of_ucsd_risk_correct_witness :
  derivable_pt_lim (make_ucsd_risk 2 [1; 3]) 5
                   (make_derivative_of_ucsd_risk 2 [1; 3] 5).
Proof.
  apply (derivative_of_ucsd_risk_correct 2 [1; 3] 5); [discriminate | lra].
Defined.

Lemma ucsd_derivative_small_witness :
  Rabs (make_derivative_of_ucsd_risk 2 [1; 3] 5) <= 1 / Rabs 2.
Proof.
  apply (ucsd_derivative_small 2 [1; 3] 5); [discriminate | lra].
Defined.

End UCSDRisk.

Lemma ucsd_gradient_descent_barely_moves_witness :
  exists r : R,
    result (gradient_descent
              (returning (make_derivative_of_ucsd_risk 30000 [1; 3]%R))
              (1 / 10)%R (1 / 1000)%R false (@None (R -> unit -> unit))
              140000%R 10 tt) = Some r /\
    (Rabs (r - 140000)
     <= INR (Z.to_nat 10) * (Rabs (1 / 10) / Rabs 30000))%R.
Proof.
  apply (ucsd_gradient_descent_barely_moves
           30000%R [1; 3]%R (1 / 10)%R (1 / 1000)%R 140000%R false
           (@None (R -> unit -> unit)) 10 tt); [discriminate | lra].
Defined.
